(** * Connection pool of the Databricks client

    A shallow embedding of [ConnectionPool] and [DatabricksClient.execute_query]
    from [streamlit/utils/databricks_client.py], and the properties of the
    bounded session pool that the design document states about them.  The
    rest of the client ([test_connection], [close]), the record model of
    [models/country_currency.py] and the operations of
    [operations/data_operations.py], which all go through [execute_query],
    follow, with what the code shows about them.

    The pool object is a record; its methods are computations in a small
    monad that threads the pool, carries Python exceptions and records the
    calls made on the outside world (driver, connections) in a log.  What the
    outside world answers (does [connect] succeed, does the probe succeed,
    does [close] raise) is an argument of each method. *)

From stdpp Require Import base list gmap strings.
From Stdlib Require Import ZArith Lia.

Local Open Scope Z_scope.

(** ** Values of the Python program *)

(** A [databricks.sql] connection object, identified by its identity. *)
Definition Conn := nat.

(** The exceptions that the modelled code raises or receives.  [Empty] and
    [Full] are those of the [queue] module, [TimeoutException] is the class
    declared at the top of the source file, [IndexError] is raised by
    [row[i]], and [DriverError] stands for the exceptions of the driver. *)
Inductive exn :=
| Empty
| Full
| TimeoutException
| IndexError
| DriverError (code : nat).

(** What a call on the driver or on one of its objects gives: a value, or
    one of the driver's own exceptions (which are none of [Empty], [Full],
    [TimeoutException]). *)
Inductive answer (A : Type) :=
| Returns (a : A)
| Raises (code : nat).
Arguments Returns {A} a.
Arguments Raises {A} code.

(** Calls on the outside world and writes of the counter, in program order. *)
Inductive Effect :=
| Connect                (* connect(server_hostname=..., ...) *)
| Wait                   (* pool.get(block=True, timeout=...) found nothing and waits *)
| Probe (c : Conn)       (* c.cursor(); cursor.execute("SELECT 1"); cursor.close() *)
| Close (c : Conn)       (* c.close() *)
| Run (c : Conn)         (* the caller's query on c *)
| Active (n : Z).        (* self.active_connections = n *)

(** ** [queue.Queue] *)

Module Queue.

Record t := mk { maxsize : Z; items : list Conn }.

Definition qsize (q : t) : Z := Z.of_nat (length (items q)).

Definition empty (q : t) : bool :=
  match items q with [] => true | _ :: _ => false end.

(** [0 < self.maxsize <= self._qsize()]: a queue whose [maxsize] is not
    positive is unbounded. *)
Definition full (q : t) : bool :=
  (0 <? maxsize q) && (maxsize q <=? qsize q).

(** [get(block=False)] *)
Definition get_nowait (q : t) : exn + Conn * t :=
  match items q with
  | [] => inl Empty
  | c :: rest => inr (c, mk (maxsize q) rest)
  end.

(** [put(item, block=False)] *)
Definition put_nowait (c : Conn) (q : t) : exn + t :=
  if full q then inl Full else inr (mk (maxsize q) (items q ++ [c])).

End Queue.

(** ** The pool object *)

(** The fields of [ConnectionPool] that its methods read after [__init__];
    the lock is not modelled (calls are taken one at a time). *)
Record ConnectionPool := Build_pool {
  max_connections : Z;
  pool : Queue.t;
  active_connections : Z
}.

(** [ConnectionPool.__init__(config, max_connections)] *)
Definition init (max_conn : Z) : ConnectionPool :=
  {| max_connections := max_conn;
     pool := Queue.mk max_conn [];
     active_connections := 0 |}.

Definition idle (s : ConnectionPool) : list Conn := Queue.items (pool s).

(** ** The monad of the methods *)

Definition M (A : Type) : Type :=
  ConnectionPool → (exn + A) * ConnectionPool * list Effect.

#[export] Instance M_ret : MRet M := λ A x s, (inr x, s, []).

#[export] Instance M_bind : MBind M := λ A B f m s,
  match m s with
  | (inl e, s1, l1) => (inl e, s1, l1)
  | (inr a, s1, l1) => let '(r, s2, l2) := f a s1 in (r, s2, l1 ++ l2)
  end.

Definition raise {A} (e : exn) : M A := λ s, (inl e, s, []).

Definition emit (ev : Effect) : M unit := λ s, (inr (), s, [ev]).

Definition read : M ConnectionPool := λ s, (inr s, s, []).

(** [try: m except <classes>: h].  The handler answers [None] for an
    exception that none of its [except] clauses matches. *)
Definition try_except {A} (m : M A) (h : exn → option (M A)) : M A := λ s,
  match m s with
  | (inl e, s1, l1) =>
      match h e with
      | Some k => let '(r, s2, l2) := k s1 in (r, s2, l1 ++ l2)
      | None => (inl e, s1, l1)
      end
  | (inr a, s1, l1) => (inr a, s1, l1)
  end.

(** [try: m finally: f] *)
Definition try_finally {A} (m : M A) (f : M unit) : M A := λ s,
  let '(r, s1, l1) := m s in
  match f s1 with
  | (inl e, s2, l2) => (inl e, s2, l1 ++ l2)
  | (inr _, s2, l2) => (r, s2, l1 ++ l2)
  end.

(** [except Exception] and a bare [except] catch every [exn]. *)
Definition any_exception {A} (k : exn → M A) : exn → option (M A) :=
  λ e, Some (k e).

Definition only_Empty {A} (k : M A) : exn → option (M A) :=
  λ e, match e with Empty => Some k | _ => None end.

(** *** Attribute writes and queue calls *)

Definition with_active (n : Z) (s : ConnectionPool) : ConnectionPool :=
  {| max_connections := max_connections s; pool := pool s;
     active_connections := n |}.

Definition with_pool (q : Queue.t) (s : ConnectionPool) : ConnectionPool :=
  {| max_connections := max_connections s; pool := q;
     active_connections := active_connections s |}.

Definition set_active (n : Z) : M unit := λ s,
  (inr (), with_active n s, [Active n]).

(** [self.active_connections += d] *)
Definition add_active (d : Z) : M unit :=
  s ← read; set_active (active_connections s + d).

Definition set_pool (q : Queue.t) : M unit := λ s,
  (inr (), with_pool q s, []).

(** [self.pool.get(block=False)] *)
Definition pool_get_nowait : M Conn :=
  s ← read;
  match Queue.get_nowait (pool s) with
  | inl e => raise e
  | inr (c, q) => set_pool q;; mret c
  end.

(** [self.pool.get(block=True, timeout=self.connection_timeout)].  An item
    that is there is taken at once; otherwise the caller waits, and [freed]
    is the session that a [put] of somebody else delivers before the timeout
    ([None]: the timeout elapses and [Empty] is raised). *)
Definition pool_get_wait (freed : option Conn) : M Conn :=
  s ← read;
  match Queue.get_nowait (pool s) with
  | inr (c, q) => set_pool q;; mret c
  | inl _ =>
      emit Wait;;
      match freed with
      | Some c => mret c
      | None => raise Empty
      end
  end.

(** [self.pool.put(connection, block=False)] *)
Definition pool_put_nowait (c : Conn) : M unit :=
  s ← read;
  match Queue.put_nowait c (pool s) with
  | inl e => raise e
  | inr q => set_pool q
  end.

(** *** Calls on the driver *)

Definition driver {A} (ev : Effect) (r : answer A) : M A :=
  emit ev;;
  match r with
  | Returns a => mret a
  | Raises code => raise (DriverError code)
  end.

Definition connect (opened : answer Conn) : M Conn := driver Connect opened.

Definition probe (c : Conn) (alive : answer unit) : M unit := driver (Probe c) alive.

Definition close (c : Conn) (closed : answer unit) : M unit := driver (Close c) closed.

(** ** Methods of [ConnectionPool] *)

Definition get_connection (opened : answer Conn) (freed : option Conn) : M Conn :=
  try_except pool_get_nowait (only_Empty (
    s ← read;
    if active_connections s <? max_connections s then
      add_active 1;;
      try_except (connect opened)
        (any_exception (λ e, add_active (-1);; raise e))
    else
      try_except (pool_get_wait freed)
        (only_Empty (raise TimeoutException)))).

Definition release_connection (c : Conn) (alive closed : answer unit) : M unit :=
  try_except (probe c alive;; pool_put_nowait c)
    (any_exception (λ _,
       try_except (close c closed) (any_exception (λ _, mret ()));;
       add_active (-1))).

(** One turn of [while not self.pool.empty(): ...] per unit of fuel.  The
    result tells whether the loop ended by itself. *)
Fixpoint close_all_loop (fuel : nat) (closed : Conn → answer unit) : M bool :=
  match fuel with
  | O => s ← read; mret (Queue.empty (pool s))
  | S fuel' =>
      s ← read;
      if Queue.empty (pool s) then mret true
      else
        go_on ← try_except
          (c ← pool_get_nowait; close c (closed c);; add_active (-1);; mret true)
          (λ e, match e with
                | Empty => Some (mret false)       (* break *)
                | _ => Some (mret true)            (* logged *)
                end);
        if go_on : bool then close_all_loop fuel' closed else mret true
  end.

Definition close_all (closed : Conn → answer unit) : M unit :=
  s ← read;
  close_all_loop (length (idle s)) closed;; mret ().

(** ** [DatabricksClient.execute_query] *)

Inductive Value :=
| VNone
| VInt (n : Z)
| VStr (s : string).

(** What the cursor does with the query: it raises, or it has a
    [description] (here the column names, [desc[0]] of every entry; [None]
    when the statement returns no rows) and [fetchall()] gives the rows. *)
Inductive QueryOutcome :=
| QueryRaises (code : nat)
| QueryReturns (description : option (list string)) (rows : list (list Value)).

(** [[desc[0] for desc in cursor.description] if cursor.description else []] *)
Definition columns_of (description : option (list string)) : list string :=
  match description with
  | Some names => names
  | None => []
  end.

(** [for i, col_name in enumerate(columns): row_dict[col_name] = row[i]] *)
Fixpoint fill_row (row : list Value) (i : nat) (columns : list string)
    (row_dict : gmap string Value) : exn + gmap string Value :=
  match columns with
  | [] => inr row_dict
  | col_name :: rest =>
      match row !! i with
      | Some v => fill_row row (S i) rest (<[col_name := v]> row_dict)
      | None => inl IndexError
      end
  end.

(** [for row in result: ...; result_dicts.append(row_dict)] *)
Fixpoint rows_to_dicts (columns : list string) (result : list (list Value))
    : exn + list (gmap string Value) :=
  match result with
  | [] => inr []
  | row :: rest =>
      match fill_row row 0 columns ∅ with
      | inl e => inl e
      | inr row_dict =>
          match rows_to_dicts columns rest with
          | inl e => inl e
          | inr dicts => inr (row_dict :: dicts)
          end
      end
  end.

(** What the body of the [with connection.cursor() as cursor:] block gives. *)
Definition query_result (outcome : QueryOutcome) : exn + list (gmap string Value) :=
  match outcome with
  | QueryRaises code => inl (DriverError code)
  | QueryReturns description rows => rows_to_dicts (columns_of description) rows
  end.

Definition run_query (c : Conn) (outcome : QueryOutcome)
    : M (list (gmap string Value)) :=
  emit (Run c);;
  match query_result outcome with
  | inl e => raise e
  | inr result_dicts => mret result_dicts
  end.

(** The mapping that the loop builds for one row: a later column of the
    same name overwrites an earlier one. *)
Definition row_dict (columns : list string) (row : list Value) : gmap string Value :=
  foldl (λ d p, <[p.1 := p.2]> d) ∅ (zip columns row).

(** Runs [m] and hands its outcome over as a value. *)
Definition attempt {A} (m : M A) : M (exn + A) := λ s,
  let '(r, s1, l1) := m s in (inr r, s1, l1).

(** The local variable [connection] is [None] until [get_connection]
    has returned. *)
Definition execute_query (opened : answer Conn) (freed : option Conn)
    (outcome : QueryOutcome) (alive closed : answer unit)
    : M (list (gmap string Value)) :=
  got ← attempt (get_connection opened freed);
  let connection := match got with inr c => Some c | inl _ => None end in
  try_finally
    (try_except
       (match got with
        | inl e => raise e
        | inr c => run_query c outcome
        end)
       (any_exception (λ e, raise e)))          (* logged, then [raise] *)
    (match connection with
     | Some c => release_connection c alive closed
     | None => mret ()
     end).

(** ** Sequences of calls *)

Inductive Call :=
| GetConnection (opened : answer Conn) (freed : option Conn)
| ReleaseConnection (c : Conn) (alive closed : answer unit)
| CloseAll (closed : Conn → answer unit).

(** A call whose exception is caught by the caller. *)
Definition call (k : Call) : M unit :=
  match k with
  | GetConnection opened freed => attempt (get_connection opened freed);; mret ()
  | ReleaseConnection c alive closed => attempt (release_connection c alive closed);; mret ()
  | CloseAll closed => attempt (close_all closed);; mret ()
  end.

Fixpoint calls (ks : list Call) : M unit :=
  match ks with
  | [] => mret ()
  | k :: rest => call k;; calls rest
  end.

(** The values that [active_connections] is given, in order. *)
Fixpoint counter_values (log : list Effect) : list Z :=
  match log with
  | [] => []
  | Active n :: rest => n :: counter_values rest
  | _ :: rest => counter_values rest
  end.

(** The sessions on which [close()] is called, in order. *)
Fixpoint closed_sessions (log : list Effect) : list Conn :=
  match log with
  | [] => []
  | Close c :: rest => c :: closed_sessions rest
  | _ :: rest => closed_sessions rest
  end.

(** What the loop of [close_all] does to the counter and to the outside
    world when the idle queue holds [its] and the counter is [a]: every
    session is taken out and [close()] is called on it; the counter goes down
    by one after a [close()] that returned, and is left alone after one that
    raised. *)
Fixpoint drain (closed : Conn → answer unit) (its : list Conn) (a : Z)
    : Z * list Effect :=
  match its with
  | [] => (a, [])
  | c :: rest =>
      match closed c with
      | Returns _ =>
          let '(a', log) := drain closed rest (a - 1) in
          (a', Close c :: Active (a - 1) :: log)
      | Raises _ =>
          let '(a', log) := drain closed rest a in
          (a', Close c :: log)
      end
  end.

(** A caller that keeps to the contract of the pool, alone on it: it
    releases only what it holds, once.  [held] lists the sessions that
    [get_connection] has returned and that were not released since. *)
Inductive serving (N : Z) : ConnectionPool → list Conn → Prop :=
| serving_init :
    serving N (init N) []
| serving_get s held opened c s' log :
    serving N s held →
    get_connection opened None s = (inr c, s', log) →
    serving N s' (c :: held)
| serving_get_failed s held opened e s' log :
    serving N s held →
    get_connection opened None s = (inl e, s', log) →
    serving N s' held
| serving_release s h1 c h2 alive closed r s' log :
    serving N s (h1 ++ c :: h2) →
    release_connection c alive closed s = (r, s', log) →
    serving N s' (h1 ++ h2)
| serving_close_all s held closed r s' log :
    serving N s held →
    close_all closed s = (r, s', log) →
    serving N s' held.

(** ** Further code of the client *)

(** [get_connection()] called once per entry of [cs], where [connect], when
    it is called, opens the session of that entry; nobody else frees a
    session meanwhile.  The sessions returned are collected. *)
Fixpoint get_connections (cs : list Conn) : M (list Conn) :=
  match cs with
  | [] => mret []
  | c :: rest =>
      got ← get_connection (Returns c) None;
      others ← get_connections rest;
      mret (got :: others)
  end.

(** [DatabricksClient.close]; [self.connection_pool] is set by [__init__]. *)
Definition client_close (closed : Conn → answer unit) : M unit :=
  try_except (close_all closed) (any_exception (λ _, mret ())).

(** The sessions that the pool counts and that are not in its idle queue:
    those it takes to be with a caller. *)
Definition checked_out (s : ConnectionPool) : Z :=
  active_connections s - Z.of_nat (length (idle s)).

Definition is_returns {A} (r : answer A) : bool :=
  match r with Returns _ => true | Raises _ => false end.

(** The sessions on which a query of the caller is run, in order. *)
Fixpoint queried_sessions (log : list Effect) : list Conn :=
  match log with
  | [] => []
  | Run c :: rest => c :: queried_sessions rest
  | _ :: rest => queried_sessions rest
  end.

(** *** [DatabricksClient.test_connection] *)

(** The fields of [DatabricksClient] that its methods use: whether the
    workspace client could be made, and the pool. *)
Record DatabricksClient := Build_client {
  workspace_client : bool;
  connection_pool : ConnectionPool
}.

(** [DatabricksClient.__init__(config, pool_size)]; [made] is what
    [WorkspaceClient(host=..., token=...)] gives. *)
Definition new_client (made : answer unit) (pool_size : Z) : DatabricksClient :=
  {| workspace_client := is_returns made; connection_pool := init pool_size |}.

(** The inner [try] of [test_connection]: a session is acquired, the test
    query is run on it ([ran]) and the session is released in the [finally]
    clause; the [except] clause logs and raises again. *)
Definition test_sql (opened : answer Conn) (freed : option Conn)
    (ran alive closed : answer unit) : M bool :=
  try_except
    (connection ← get_connection opened freed;
     try_finally (driver (Run connection) ran)
       (release_connection connection alive closed);;
     mret true)
    (any_exception (λ e, raise e)).

(** [made] is what [WorkspaceClient(...)] gives when the client has none
    yet, [me] what [current_user.me()] gives.  Both [except] clauses of the
    outer [try] return [False]. *)
Definition test_connection (made me : answer unit) (opened : answer Conn)
    (freed : option Conn) (ran alive closed : answer unit)
    (cl : DatabricksClient) : bool * DatabricksClient * list Effect :=
  if negb (workspace_client cl) && negb (is_returns made) then (false, cl, [])
  else
    let cl1 := Build_client true (connection_pool cl) in
    if negb (is_returns me) then (false, cl1, [])
    else
      let '(r, p, log) := test_sql opened freed ran alive closed (connection_pool cl) in
      (match r with inr ok => ok | inl _ => false end, Build_client true p, log).

(** *** [ConnectionPool.__init__]: the address of the endpoint *)

(** [sub in s] *)
Fixpoint contains (sub s : string) : bool :=
  String.prefix sub s ||
  match s with
  | EmptyString => false
  | String _ rest => contains sub rest
  end.

(** [s.replace(sub, "")] for a [sub] that is not empty: the occurrences of
    [sub] are found from left to right, without overlap, and left out.
    [skip] counts the characters of an occurrence that are still to be
    passed over. *)
Fixpoint remove_all (sub : string) (skip : nat) (s : string) : string :=
  match s with
  | EmptyString => EmptyString
  | String a rest =>
      match skip with
      | S skip' => remove_all sub skip' rest
      | O =>
          if String.prefix sub s
          then remove_all sub (String.length sub - 1) rest
          else String a (remove_all sub 0 rest)
      end
  end.

(** [config.host.replace("https://", "")] *)
Definition server_hostname (host : string) : string :=
  remove_all "https://" 0 host.

(** [warehouse_id] is [None] or a string; an empty string is not "true". *)
Definition http_path (warehouse_id : option string) : string :=
  match warehouse_id with
  | None | Some EmptyString => "sql/1.0/warehouses/auto"
  | Some id => "sql/1.0/warehouses/" +:+ id
  end.

(** ** [models/country_currency.py] *)

Record CountryCurrency := Build_record {
  country_code : Value;
  country_number : Value;
  country : Value;
  currency_name : Value;
  currency_code : Value;
  currency_number : Value
}.

(** [data.get(key)] is [None] for a key that [data] does not have. *)
Definition dict_get (data : gmap string Value) (key : string) : Value :=
  default VNone (data !! key).

Definition from_dict (data : gmap string Value) : CountryCurrency :=
  {| country_code := dict_get data "country_code";
     country_number := dict_get data "country_number";
     country := dict_get data "country";
     currency_name := dict_get data "currency_name";
     currency_code := dict_get data "currency_code";
     currency_number := dict_get data "currency_number" |}.

Definition to_dict (record : CountryCurrency) : gmap string Value :=
  {[ "country_code" := country_code record;
     "country_number" := country_number record;
     "country" := country record;
     "currency_name" := currency_name record;
     "currency_code" := currency_code record;
     "currency_number" := currency_number record ]}.

Definition record_fields : list string :=
  ["country_code"; "country_number"; "country"; "currency_name";
   "currency_code"; "currency_number"].

(** ** [operations/data_operations.py] *)

(** The exceptions that reach a method of [DataOperations]: those of the
    client, and [KeyError] from [record[key]]. *)
Inductive op_exn :=
| KeyError (key : string)
| ClientError (e : exn).

Definition Op (A : Type) : Type :=
  ConnectionPool → (op_exn + A) * ConnectionPool * list Effect.

#[export] Instance Op_ret : MRet Op := λ A x s, (inr x, s, []).

#[export] Instance Op_bind : MBind Op := λ A B f m s,
  match m s with
  | (inl e, s1, l1) => (inl e, s1, l1)
  | (inr a, s1, l1) => let '(r, s2, l2) := f a s1 in (r, s2, l1 ++ l2)
  end.

Definition op_raise {A} (e : op_exn) : Op A := λ s, (inl e, s, []).

(** [try: m except Exception as e: h] *)
Definition op_try {A} (m : Op A) (h : op_exn → Op A) : Op A := λ s,
  match m s with
  | (inl e, s1, l1) => let '(r, s2, l2) := h e s1 in (r, s2, l1 ++ l2)
  | (inr a, s1, l1) => (inr a, s1, l1)
  end.

(** What the outside world does during one [execute_query]. *)
Record Reply := Build_reply {
  on_connect : answer Conn;
  on_wait : option Conn;
  on_query : QueryOutcome;
  on_probe : answer unit;
  on_close : answer unit
}.

(** [self.client.execute_query(query, params)].  The text of the statement
    and its parameters go to the driver, and what the driver makes of them
    is in [w]. *)
Definition client_execute_query (w : Reply) : Op (list (gmap string Value)) := λ s,
  let '(r, s1, l1) :=
    execute_query (on_connect w) (on_wait w) (on_query w) (on_probe w) (on_close w) s in
  (match r with inl e => inl (ClientError e) | inr rows => inr rows end, s1, l1).

(** [record[key]] *)
Definition getitem (record : gmap string Value) (key : string) : Op Value :=
  match record !! key with
  | Some v => mret v
  | None => op_raise (KeyError key)
  end.

(** [value == 0] *)
Definition equals_zero (v : Value) : bool :=
  match v with VInt 0 => true | _ => false end.

Definition get_all_records (w : Reply) : Op (list (gmap string Value)) :=
  op_try (client_execute_query w) (λ _, mret []).

Definition get_record_by_id (w : Reply) : Op (option (gmap string Value)) :=
  op_try
    (result ← client_execute_query w;
     match result with
     | first :: _ => mret (Some first)
     | [] => mret None
     end)
    (λ _, mret None).

(** The tuple [params] is built before the [try]. *)
Definition create_record (record : gmap string Value) (w : Reply) : Op bool :=
  getitem record "country_code";;
  getitem record "country_number";;
  getitem record "country";;
  getitem record "currency_name";;
  getitem record "currency_code";;
  getitem record "currency_number";;
  op_try (client_execute_query w;; mret true) (λ _, mret false).

Definition add_record (record : CountryCurrency) (w : Reply) : Op bool :=
  create_record
    {[ "country_code" := country_code record;
       "country_number" := country_number record;
       "country" := country record;
       "currency_name" := currency_name record;
       "currency_code" := currency_code record;
       "currency_number" := currency_number record ]} w.

(** [record] is a [CountryCurrency] object or a dict.  The existence check
    and the building of the parameters are outside the [try]. *)
Definition update_record (record : CountryCurrency + gmap string Value)
    (w_check w_update w_verify : Reply) : Op bool :=
  let record_dict :=
    match record with
    | inl r =>
        {[ "country_code" := country_code r;
           "country_number" := country_number r;
           "country" := country r;
           "currency_name" := currency_name r;
           "currency_code" := currency_code r;
           "currency_number" := currency_number r ]}
    | inr d => d
    end in
  getitem record_dict "country_code";;
  check_result ← client_execute_query w_check;
  absent ← match check_result with
           | [] => mret true
           | first :: _ => count ← getitem first "count"; mret (equals_zero count)
           end;
  if absent : bool then mret false
  else
    getitem record_dict "country_number";;
    getitem record_dict "country";;
    getitem record_dict "currency_name";;
    getitem record_dict "currency_code";;
    getitem record_dict "currency_number";;
    getitem record_dict "country_code";;
    op_try
      (client_execute_query w_update;;
       verify_result ← client_execute_query w_verify;
       match verify_result with
       | _ :: _ => mret true
       | [] => mret false
       end)
      (λ _, mret false).

(** The dict that [update_record] works on has the key [country_code]. *)
Definition has_country_code (record : CountryCurrency + gmap string Value) : Prop :=
  match record with
  | inl _ => True
  | inr d => is_Some (d !! "country_code")
  end.

Definition delete_record (w : Reply) : Op bool :=
  op_try (client_execute_query w;; mret true) (λ _, mret false).

Definition count_records (w : Reply) : Op Value :=
  op_try
    (result ← client_execute_query w;
     match result with
     | first :: _ => getitem first "count"
     | [] => mret (VInt 0)
     end)
    (λ _, mret (VInt 0)).

(** * Properties *)

(** ** Equations of the methods, branch by branch *)

Ltac unfold_monad :=
  unfold get_connection, release_connection, pool_get_nowait, pool_get_wait,
    pool_put_nowait, connect, probe, close, driver, add_active, set_active, set_pool,
    try_except, try_finally, attempt, only_Empty, any_exception, raise, emit,
    read, mbind, mret, M_bind, M_ret, Queue.get_nowait, Queue.put_nowait,
    with_active, with_pool, idle in *.

Lemma get_connection_idle s c rest opened freed :
  idle s = c :: rest →
  get_connection opened freed s
  = (inr c, with_pool (Queue.mk (Queue.maxsize (pool s)) rest) s, []).
Proof.
  destruct s as [N [ms its] a]. unfold_monad; simpl. intros ->. reflexivity.
Qed.

Lemma get_connection_new s c freed :
  idle s = [] →
  active_connections s < max_connections s →
  get_connection (Returns c) freed s
  = (inr c, with_active (active_connections s + 1) s,
     [Active (active_connections s + 1); Connect]).
Proof.
  destruct s as [N [ms its] a]. unfold_monad; simpl. intros -> Hlt; simpl.
  apply Z.ltb_lt in Hlt. rewrite Hlt. reflexivity.
Qed.

Lemma get_connection_refused s code freed :
  idle s = [] →
  active_connections s < max_connections s →
  get_connection (Raises code) freed s
  = (inl (DriverError code), s,
     [Active (active_connections s + 1); Connect; Active (active_connections s)]).
Proof.
  destruct s as [N [ms its] a]. unfold_monad; simpl. intros -> Hlt; simpl.
  apply Z.ltb_lt in Hlt. rewrite Hlt; simpl.
  replace (a + 1 + -1) with a by lia. reflexivity.
Qed.

Lemma get_connection_wait s opened freed :
  idle s = [] →
  max_connections s ≤ active_connections s →
  get_connection opened freed s
  = (match freed with Some c => inr c | None => inl TimeoutException end,
     s, [Wait]).
Proof.
  destruct s as [N [ms its] a]. unfold_monad; simpl. intros -> Hge; simpl.
  apply Z.ltb_ge in Hge. rewrite Hge. destruct freed; reflexivity.
Qed.

Lemma release_connection_put s c closed :
  Queue.full (pool s) = false →
  release_connection c (Returns ()) closed s
  = (inr (), with_pool (Queue.mk (Queue.maxsize (pool s)) (idle s ++ [c])) s,
     [Probe c]).
Proof.
  destruct s as [N [ms its] a]. unfold_monad; simpl. intros ->. reflexivity.
Qed.

Lemma release_connection_discard s c alive closed :
  ((∃ code, alive = Raises code) ∨ Queue.full (pool s) = true) →
  release_connection c alive closed s
  = (inr (), with_active (active_connections s - 1) s,
     [Probe c; Close c; Active (active_connections s - 1)]).
Proof.
  destruct s as [N [ms its] a]. unfold_monad; simpl.
  destruct alive as [[]|code]; simpl.
  - intros [[code Hcode]| ->]; [discriminate|]. destruct closed; reflexivity.
  - intros _. destruct closed; reflexivity.
Qed.

Lemma close_all_loop_drain closed its : ∀ fuel N ms a,
  (length its ≤ fuel)%nat →
  close_all_loop fuel closed (Build_pool N (Queue.mk ms its) a)
  = (inr true, Build_pool N (Queue.mk ms []) (drain closed its a).1,
     (drain closed its a).2).
Proof.
  induction its as [|c rest IH]; intros fuel N ms a Hfuel.
  - destruct fuel; reflexivity.
  - destruct fuel as [|fuel]; [simpl in Hfuel; lia|].
    assert (Hrest : (length rest ≤ fuel)%nat) by (simpl in Hfuel; lia).
    simpl. unfold_monad; simpl.
    destruct (closed c) as [[]|code]; simpl.
    + specialize (IH fuel N ms (a + -1) Hrest). rewrite IH.
      change (a - 1) with (a + -1).
      destruct (drain closed rest (a + -1)); reflexivity.
    + specialize (IH fuel N ms a Hrest).
      rewrite IH; destruct (drain closed rest a); reflexivity.
Qed.

(** The loop of [close_all] ends by itself, on an empty queue: the fuel
    that [close_all] gives it is enough, and more fuel changes nothing. *)
Lemma close_all_drain closed s :
  close_all closed s
  = (inr (),
     Build_pool (max_connections s) (Queue.mk (Queue.maxsize (pool s)) [])
       (drain closed (idle s) (active_connections s)).1,
     (drain closed (idle s) (active_connections s)).2).
Proof.
  destruct s as [N [ms its] a]. unfold close_all.
  unfold mbind at 1 2, M_bind, read, idle; simpl.
  rewrite close_all_loop_drain by lia. simpl.
  rewrite app_nil_r. reflexivity.
Qed.

Lemma close_all_empty closed s :
  idle s = [] → close_all closed s = (inr (), s, []).
Proof.
  intros Hidle. rewrite close_all_drain, Hidle.
  destruct s as [N [ms its] a]. unfold idle in Hidle; simpl in *. by subst.
Qed.

Lemma drain_counter closed its : ∀ a,
  (drain closed its a).1 ≤ a ∧
  a - Z.of_nat (length its) ≤ (drain closed its a).1 ∧
  Forall (λ n, n ≤ a) (counter_values (drain closed its a).2).
Proof.
  induction its as [|c rest IH]; intros a; simpl.
  - split; [lia|]. split; [lia|]. constructor.
  - destruct (closed c).
    + destruct (IH (a - 1)) as (H1 & H2 & H3).
      destruct (drain closed rest (a - 1)) as [a' log]; simpl in *.
      split; [lia|]. split; [lia|]. constructor; [lia|].
      eapply Forall_impl; [exact H3|]. simpl; intros; lia.
    + destruct (IH a) as (H1 & H2 & H3).
      destruct (drain closed rest a) as [a' log]; simpl in *.
      split; [lia|]. split; [lia|]. done.
Qed.

Lemma drain_closes closed its a :
  closed_sessions (drain closed its a).2 = its.
Proof.
  revert a. induction its as [|c rest IH]; intros a; simpl; [done|].
  destruct (closed c).
  - specialize (IH (a - 1)). destruct (drain closed rest (a - 1)); simpl in *.
    by f_equal.
  - specialize (IH a). destruct (drain closed rest a); simpl in *. by f_equal.
Qed.

(** When no [close()] raises, the counter goes down once per idle session. *)
Lemma drain_all_closed closed its : ∀ a,
  Forall (λ c, closed c = Returns ()) its →
  (drain closed its a).1 = a - Z.of_nat (length its) ∧
  counter_values (drain closed its a).2
  = (λ i : nat, a - Z.of_nat i) <$> seq 1 (length its).
Proof.
  induction its as [|c rest IH]; intros a Hok; simpl.
  - split; [lia | done].
  - inversion Hok as [|? ? Hc Hrest]; subst. rewrite Hc.
    destruct (IH (a - 1) Hrest) as [H1 H2].
    destruct (drain closed rest (a - 1)) as [a' log]; simpl in *.
    split; [lia|]. f_equal. rewrite H2, <- (fmap_S_seq 1), <- list_fmap_compose.
    apply list_fmap_ext. intros _ i _. simpl. lia.
Qed.

Lemma counter_values_app l1 l2 :
  counter_values (l1 ++ l2) = counter_values l1 ++ counter_values l2.
Proof.
  induction l1 as [|ev l1 IH]; simpl; [done|].
  destruct ev; simpl; by rewrite ?IH.
Qed.

Lemma attempt_unit {A} (m : M A) s r s1 l1 :
  m s = (r, s1, l1) → (attempt m;; mret ()) s = (inr (), s1, l1).
Proof.
  intros Hm. unfold attempt, mbind, mret, M_bind, M_ret. rewrite Hm; simpl.
  by rewrite app_nil_r.
Qed.

(** *** The bound is kept by every call *)

Lemma get_connection_bounded opened freed s :
  active_connections s ≤ max_connections s →
  ∃ r s' log, get_connection opened freed s = (r, s', log) ∧
    max_connections s' = max_connections s ∧
    active_connections s' ≤ max_connections s ∧
    Forall (λ n, n ≤ max_connections s) (counter_values log).
Proof.
  intros Hle. destruct (idle s) as [|c rest] eqn:Hidle.
  - destruct (Z.lt_ge_cases (active_connections s) (max_connections s)) as [Hlt|Hge].
    + destruct opened as [c|code].
      * rewrite (get_connection_new _ _ _ Hidle Hlt). do 3 eexists.
        split; [done|]. simpl. repeat split; [lia|]. repeat constructor. lia.
      * rewrite (get_connection_refused _ _ _ Hidle Hlt). do 3 eexists.
        split; [done|]. simpl. repeat split; [lia|]. repeat constructor; lia.
    + rewrite (get_connection_wait _ _ _ Hidle Hge). do 3 eexists.
      split; [done|]. simpl. repeat split; [lia|]. constructor.
  - rewrite (get_connection_idle _ _ _ _ _ Hidle). do 3 eexists.
    split; [done|]. simpl. repeat split; [lia|]. constructor.
Qed.

Lemma release_connection_cases c alive closed s :
  release_connection c alive closed s
  = (inr (), with_pool (Queue.mk (Queue.maxsize (pool s)) (idle s ++ [c])) s,
     [Probe c])
  ∨ release_connection c alive closed s
  = (inr (), with_active (active_connections s - 1) s,
     [Probe c; Close c; Active (active_connections s - 1)]).
Proof.
  destruct alive as [[]|code].
  - destruct (Queue.full (pool s)) eqn:Hfull.
    + right. apply release_connection_discard. by right.
    + left. by apply release_connection_put.
  - right. apply release_connection_discard. left. by exists code.
Qed.

Lemma release_connection_bounded c alive closed s :
  active_connections s ≤ max_connections s →
  ∃ s' log, release_connection c alive closed s = (inr (), s', log) ∧
    max_connections s' = max_connections s ∧
    active_connections s' ≤ max_connections s ∧
    Forall (λ n, n ≤ max_connections s) (counter_values log).
Proof.
  intros Hle.
  destruct (release_connection_cases c alive closed s) as [-> | ->];
    do 2 eexists; (split; [done|]); simpl; repeat split; try lia.
  - constructor.
  - repeat constructor. lia.
Qed.

Lemma close_all_bounded closed s :
  active_connections s ≤ max_connections s →
  ∃ s' log, close_all closed s = (inr (), s', log) ∧
    max_connections s' = max_connections s ∧
    active_connections s' ≤ max_connections s ∧
    Forall (λ n, n ≤ max_connections s) (counter_values log).
Proof.
  intros Hle. rewrite close_all_drain. do 2 eexists. split; [done|]. simpl.
  destruct (drain_counter closed (idle s) (active_connections s)) as (H1 & _ & H3).
  repeat split; [lia|]. eapply Forall_impl; [exact H3|]. simpl; intros; lia.
Qed.

Lemma call_bounded k s :
  active_connections s ≤ max_connections s →
  ∃ s' log, call k s = (inr (), s', log) ∧
    max_connections s' = max_connections s ∧
    active_connections s' ≤ max_connections s ∧
    Forall (λ n, n ≤ max_connections s) (counter_values log).
Proof.
  intros Hle. destruct k as [opened freed|c alive closed|closed]; simpl.
  - destruct (get_connection_bounded opened freed s Hle) as (r & s' & log & H & ?).
    exists s', log. split; [|done]. by eapply attempt_unit.
  - destruct (release_connection_bounded c alive closed s Hle) as (s' & log & H & ?).
    exists s', log. split; [|done]. by eapply attempt_unit.
  - destruct (close_all_bounded closed s Hle) as (s' & log & H & ?).
    exists s', log. split; [|done]. by eapply attempt_unit.
Qed.

Lemma calls_bounded ks : ∀ s,
  active_connections s ≤ max_connections s →
  ∃ s' log, calls ks s = (inr (), s', log) ∧
    max_connections s' = max_connections s ∧
    active_connections s' ≤ max_connections s ∧
    Forall (λ n, n ≤ max_connections s) (counter_values log).
Proof.
  induction ks as [|k ks IH]; intros s Hle; simpl.
  - exists s, []. repeat split; [done | constructor].
  - destruct (call_bounded k s Hle) as (s1 & l1 & Hk & Hmax1 & Hle1 & Hall1).
    destruct (IH s1) as (s2 & l2 & Hks & Hmax2 & Hle2 & Hall2); [lia|].
    exists s2, (l1 ++ l2). unfold mbind, M_bind. rewrite Hk, Hks.
    split; [done|]. split; [congruence|]. split; [lia|].
    rewrite counter_values_app. apply Forall_app. split; [done|].
    eapply Forall_impl; [exact Hall2|]. simpl; intros; lia.
Qed.

(** ** The bound on the counter *)

(** C1. On a pool made with [max_connections = N] (a count of sessions, so
    not negative), whatever calls of [get_connection] and
    [release_connection] (and of [close_all]) are made one after the other
    and whatever the outside world answers, every value that
    [active_connections] takes, from the [0] of [__init__] through every
    assignment to the value at the end, is at most [N]. *)
Theorem active_connections_never_exceeds_max N ks r s log :
  0 ≤ N →
  calls ks (init N) = (r, s, log) →
  Forall (λ n, n ≤ N) (0 :: counter_values log) ∧ active_connections s ≤ N.
Proof.
  intros HN Hrun.
  destruct (calls_bounded ks (init N)) as (s' & log' & Hks & _ & Hle & Hall);
    [simpl; lia|].
  rewrite Hks in Hrun. injection Hrun as <- <- <-. simpl in *.
  split; [by constructor | done].
Qed.

Lemma active_connections_never_exceeds_max_witness :
  0 ≤ 1 ∧
  calls [GetConnection (Returns 4%nat) None;
         GetConnection (Returns 5%nat) None;
         ReleaseConnection 4%nat (Raises 0) (Returns ());
         GetConnection (Raises 9) None;
         GetConnection (Returns 5%nat) None] (init 1)
  = (inr (), Build_pool 1 (Queue.mk 1 []) 1,
     [Active 1; Connect; Wait; Probe 4%nat; Close 4%nat; Active 0;
      Active 1; Connect; Active 0; Active 1; Connect]) ∧
  Forall (λ n, n ≤ 1) [0; 1; 0; 1; 0; 1] ∧
  active_connections (Build_pool 1 (Queue.mk 1 []) 1) ≤ 1.
Proof.
  split; [lia|]. split; [reflexivity|].
  apply (active_connections_never_exceeds_max 1
           [GetConnection (Returns 4%nat) None;
            GetConnection (Returns 5%nat) None;
            ReleaseConnection 4%nat (Raises 0) (Returns ());
            GetConnection (Raises 9) None;
            GetConnection (Returns 5%nat) None]
           (inr ()) (Build_pool 1 (Queue.mk 1 []) 1)
           [Active 1; Connect; Wait; Probe 4%nat; Close 4%nat; Active 0;
            Active 1; Connect; Active 0; Active 1; Connect]);
    [lia | reflexivity].
Defined.

(** ** Errors of [get_connection] *)

(** C3. When the idle queue is empty, the counter has reached
    [max_connections] and nothing is put on the queue before the timeout
    ([freed = None]), [get_connection] raises [TimeoutException] after
    waiting, without calling [connect], and leaves the pool as it was. *)
Theorem get_connection_timeout_keeps_pool s opened :
  idle s = [] →
  max_connections s ≤ active_connections s →
  get_connection opened None s = (inl TimeoutException, s, [Wait]).
Proof.
  intros Hidle Hge. by rewrite (get_connection_wait s opened None Hidle Hge).
Qed.

Lemma get_connection_timeout_keeps_pool_witness :
  get_connection (Returns 8%nat) None (with_active 1 (init 1))
  = (inl TimeoutException, with_active 1 (init 1), [Wait]).
Proof.
  apply (get_connection_timeout_keeps_pool (with_active 1 (init 1)) (Returns 8%nat));
    [reflexivity | simpl; lia].
Defined.

(** C4. When [get_connection] creates a session (no idle session, counter
    below [max_connections]) and [connect] raises, the driver's exception
    reaches the caller and the counter, incremented before [connect], is
    back at its value of before the call: the pool is as it was, and a later
    [get_connection] takes the creation branch again and returns the session
    that [connect] then opens. *)
Theorem get_connection_failure_rolls_back s code freed :
  idle s = [] →
  active_connections s < max_connections s →
  get_connection (Raises code) freed s
  = (inl (DriverError code), s,
     [Active (active_connections s + 1); Connect; Active (active_connections s)])
  ∧ ∀ c freed',
      get_connection (Returns c) freed' s
      = (inr c, with_active (active_connections s + 1) s,
         [Active (active_connections s + 1); Connect]).
Proof.
  intros Hidle Hlt. split.
  - by apply get_connection_refused.
  - intros c freed'. by apply get_connection_new.
Qed.

Lemma get_connection_failure_rolls_back_witness :
  get_connection (Raises 3) None (init 1)
  = (inl (DriverError 3), init 1, [Active 1; Connect; Active 0])
  ∧ ∀ c freed',
      get_connection (Returns c) freed' (init 1)
      = (inr c, with_active 1 (init 1), [Active 1; Connect]).
Proof.
  apply (get_connection_failure_rolls_back (init 1) 3%nat None);
    [reflexivity | simpl; lia].
Defined.

(** ** [release_connection] *)

(** C5. When the probe of [release_connection] raises, the call returns
    normally (whatever [close()] does), [close()] has been called on the
    session, the idle queue is as before (the session is not put on it) and
    the counter is one less. *)
Theorem release_connection_dead_session s c code closed :
  release_connection c (Raises code) closed s
  = (inr (), with_active (active_connections s - 1) s,
     [Probe c; Close c; Active (active_connections s - 1)])
  ∧ idle (with_active (active_connections s - 1) s) = idle s.
Proof.
  split; [|done]. apply release_connection_discard. left. by exists code.
Qed.

(** C10. When the probe succeeds but the idle queue is full, [put] raises
    [Full], which the [except Exception] clause catches: the session is not
    enqueued, [close()] is called on it, the counter is one less and the call
    returns normally. *)
Theorem release_connection_full_queue s c closed :
  Queue.full (pool s) = true →
  release_connection c (Returns ()) closed s
  = (inr (), with_active (active_connections s - 1) s,
     [Probe c; Close c; Active (active_connections s - 1)])
  ∧ idle (with_active (active_connections s - 1) s) = idle s.
Proof.
  intros Hfull. split; [|done]. apply release_connection_discard. by right.
Qed.

Lemma release_connection_full_queue_witness :
  release_connection 6%nat (Returns ()) (Returns ())
    (Build_pool 1 (Queue.mk 1 [6%nat]) 1)
  = (inr (), Build_pool 1 (Queue.mk 1 [6%nat]) 0,
     [Probe 6%nat; Close 6%nat; Active 0])
  ∧ [6%nat] = [6%nat].
Proof.
  apply (release_connection_full_queue (Build_pool 1 (Queue.mk 1 [6%nat]) 1)
           6%nat (Returns ())).
  reflexivity.
Defined.

(** C2, as the code has it.  [release_connection] keeps no record of what
    was released: a second release of the same session is treated like the
    first.  With two failed probes the counter goes down twice, on every
    pool.  With two successful probes the session is enqueued twice when the
    queue has room for both; when it has room for one only, the second
    release finds the queue full, so that [close()] is called on the session
    that sits in the idle queue and the counter goes down. *)
Theorem release_connection_twice s c closed1 closed2 :
  (∀ code1 code2,
     (release_connection c (Raises code1) closed1;;
      release_connection c (Raises code2) closed2) s
     = (inr (), with_active (active_connections s - 2) s,
        [Probe c; Close c; Active (active_connections s - 1);
         Probe c; Close c; Active (active_connections s - 2)]))
  ∧ (Queue.full (Queue.mk (Queue.maxsize (pool s)) (idle s ++ [c])) = false →
     (release_connection c (Returns ()) closed1;;
      release_connection c (Returns ()) closed2) s
     = (inr (), with_pool (Queue.mk (Queue.maxsize (pool s)) (idle s ++ [c; c])) s,
        [Probe c; Probe c]))
  ∧ (Queue.full (pool s) = false →
     Queue.full (Queue.mk (Queue.maxsize (pool s)) (idle s ++ [c])) = true →
     (release_connection c (Returns ()) closed1;;
      release_connection c (Returns ()) closed2) s
     = (inr (),
        with_active (active_connections s - 1)
          (with_pool (Queue.mk (Queue.maxsize (pool s)) (idle s ++ [c])) s),
        [Probe c; Probe c; Close c; Active (active_connections s - 1)])).
Proof.
  split; [|split].
  - intros code1 code2. unfold mbind, M_bind.
    rewrite (release_connection_discard s c (Raises code1) closed1)
      by (left; by exists code1).
    rewrite release_connection_discard by (left; by exists code2).
    destruct s as [N q a]. unfold with_active; simpl.
    by replace (a - 1 - 1) with (a - 2) by lia.
  - intros Hroom.
    assert (Hfirst : Queue.full (pool s) = false).
    { destruct s as [N [ms its] a]. unfold Queue.full, Queue.qsize, idle in *.
      simpl in *. rewrite length_app in Hroom. simpl in Hroom.
      apply andb_false_iff in Hroom. apply andb_false_iff.
      destruct Hroom as [H|H]; [by left|right].
      apply Z.leb_gt in H. apply Z.leb_gt. lia. }
    unfold mbind, M_bind.
    rewrite (release_connection_put s c closed1 Hfirst).
    rewrite release_connection_put by exact Hroom.
    destruct s as [N [ms its] a]. unfold with_pool, idle; simpl.
    by rewrite <- app_assoc.
  - intros Hfirst Hfull. unfold mbind, M_bind.
    rewrite (release_connection_put s c closed1 Hfirst).
    rewrite release_connection_discard by (right; exact Hfull).
    reflexivity.
Qed.

Lemma release_connection_twice_witness :
  (∀ code1 code2,
     (release_connection 1%nat (Raises code1) (Returns ());;
      release_connection 1%nat (Raises code2) (Returns ())) (with_active 1 (init 1))
     = (inr (), Build_pool 1 (Queue.mk 1 []) (-1),
        [Probe 1%nat; Close 1%nat; Active 0;
         Probe 1%nat; Close 1%nat; Active (-1)]))
  ∧ (release_connection 1%nat (Returns ()) (Returns ());;
     release_connection 1%nat (Returns ()) (Returns ())) (with_active 1 (init 2))
    = (inr (), Build_pool 2 (Queue.mk 2 [1%nat; 1%nat]) 1,
       [Probe 1%nat; Probe 1%nat])
  ∧ (release_connection 1%nat (Returns ()) (Returns ());;
     release_connection 1%nat (Returns ()) (Returns ())) (with_active 1 (init 1))
    = (inr (), Build_pool 1 (Queue.mk 1 [1%nat]) 0,
       [Probe 1%nat; Probe 1%nat; Close 1%nat; Active 0]).
Proof.
  destruct (release_connection_twice (with_active 1 (init 1)) 1%nat
              (Returns ()) (Returns ())) as (Hdead & _ & Hone).
  destruct (release_connection_twice (with_active 1 (init 2)) 1%nat
              (Returns ()) (Returns ())) as (_ & Htwo & _).
  split; [exact Hdead|]. split; [apply Htwo | apply Hone]; reflexivity.
Defined.

(** C2, as stated, fails.  One session is opened on a pool of two, and
    released twice with a probe that succeeds: it is on the idle queue twice.
    Released twice with a probe that fails: the counter is decremented
    twice, to [-1]. *)
Lemma release_connection_twice_not_guarded :
  (get_connection (Returns 1%nat) None;;
   release_connection 1%nat (Returns ()) (Returns ());;
   release_connection 1%nat (Returns ()) (Returns ())) (init 2)
  = (inr (), Build_pool 2 (Queue.mk 2 [1%nat; 1%nat]) 1,
     [Active 1; Connect; Probe 1%nat; Probe 1%nat])
  ∧
  (get_connection (Returns 1%nat) None;;
   release_connection 1%nat (Raises 0) (Returns ());;
   release_connection 1%nat (Raises 0) (Returns ())) (init 2)
  = (inr (), Build_pool 2 (Queue.mk 2 []) (-1),
     [Active 1; Connect; Probe 1%nat; Close 1%nat; Active 0;
      Probe 1%nat; Close 1%nat; Active (-1)]).
Proof. split; reflexivity. Qed.

(** ** Release, then acquire *)

(** What holds of the pool of a caller that keeps to the contract: the idle
    sessions and the sessions held are all counted, and the counter is within
    the bound. *)
Lemma serving_invariant N s held :
  serving N s held →
  max_connections s = N ∧ Queue.maxsize (pool s) = N ∧
  Z.of_nat (length (idle s)) + Z.of_nat (length held) ≤ active_connections s ∧
  active_connections s ≤ Z.max 0 N.
Proof.
  induction 1 as
    [ | s held opened c s' log _ IH Hget
      | s held opened e s' log _ IH Hget
      | s h1 c h2 alive closed r s' log _ IH Hrel
      | s held closed r s' log _ IH Hclose ].
  - simpl. repeat split; lia.
  - destruct IH as (Hmax & Hsize & Hcount & Hbound).
    destruct (idle s) as [|c0 rest] eqn:Hidle.
    + destruct (Z.lt_ge_cases (active_connections s) (max_connections s)) as [Hlt|Hge].
      * destruct opened as [c1|code].
        -- rewrite (get_connection_new _ _ _ Hidle Hlt) in Hget.
           injection Hget as <- <- <-. unfold idle in *; simpl in *.
           rewrite Hidle. simpl. repeat split; lia.
        -- rewrite (get_connection_refused _ _ _ Hidle Hlt) in Hget. discriminate.
      * rewrite (get_connection_wait _ _ _ Hidle Hge) in Hget. discriminate.
    + rewrite (get_connection_idle _ _ _ _ _ Hidle) in Hget.
      injection Hget as <- <- <-. unfold idle in *; simpl in *.
      repeat split; lia.
  - destruct IH as (Hmax & Hsize & Hcount & Hbound).
    destruct (idle s) as [|c0 rest] eqn:Hidle.
    + destruct (Z.lt_ge_cases (active_connections s) (max_connections s)) as [Hlt|Hge].
      * destruct opened as [c1|code].
        -- rewrite (get_connection_new _ _ _ Hidle Hlt) in Hget. discriminate.
        -- rewrite (get_connection_refused _ _ _ Hidle Hlt) in Hget.
           injection Hget as _ <- _. rewrite Hidle. done.
      * rewrite (get_connection_wait _ _ _ Hidle Hge) in Hget.
        injection Hget as _ <- _. rewrite Hidle. done.
    + rewrite (get_connection_idle _ _ _ _ _ Hidle) in Hget. discriminate.
  - destruct IH as (Hmax & Hsize & Hcount & Hbound).
    rewrite length_app in Hcount. simpl in Hcount. rewrite length_app.
    destruct (release_connection_cases c alive closed s) as [Heq|Heq];
      rewrite Heq in Hrel; injection Hrel as _ <- _;
      unfold idle in *; simpl in *; [rewrite length_app; simpl|];
      repeat split; lia.
  - destruct IH as (Hmax & Hsize & Hcount & Hbound).
    rewrite close_all_drain in Hclose. injection Hclose as _ <- _.
    destruct (drain_counter closed (idle s) (active_connections s)) as (H1 & H2 & _).
    unfold idle in *; simpl in *. repeat split; lia.
Qed.

(** The queue has room for every session that is held. *)
Lemma serving_room N s held c :
  serving N s held → c ∈ held → Queue.full (pool s) = false.
Proof.
  intros Hs Hin. destruct (serving_invariant N s held Hs) as (_ & Hsize & Hcount & Hbound).
  assert (0 < length held)%nat by (destruct held; [by apply elem_of_nil in Hin | simpl; lia]).
  unfold Queue.full, Queue.qsize, idle in *. rewrite Hsize.
  apply andb_false_iff. right. apply Z.leb_gt. lia.
Qed.

(** C6, as the code has it.  For a session [c] that the caller holds and
    whose probe succeeds, [release_connection c] puts [c] at the end of the
    idle queue and leaves the counter alone; the next [get_connection] then
    returns at once (no wait, no [connect], no probe) the session at the
    front of the queue, which is [c] when the queue was empty before the
    release, and the session that has been idle longest otherwise. *)
Theorem release_then_get_connection N s held c closed opened freed :
  serving N s held →
  c ∈ held →
  let s1 := with_pool (Queue.mk (Queue.maxsize (pool s)) (idle s ++ [c])) s in
  release_connection c (Returns ()) closed s = (inr (), s1, [Probe c])
  ∧ active_connections s1 = active_connections s
  ∧ get_connection opened freed s1
    = (inr (default c (head (idle s))),
       with_pool (Queue.mk (Queue.maxsize (pool s)) (tail (idle s ++ [c]))) s,
       [])
  ∧ (idle s = [] → get_connection opened freed s1 = (inr c, s, [])).
Proof.
  intros Hs Hin s1.
  pose proof (serving_room N s held c Hs Hin) as Hroom.
  split; [by apply release_connection_put|]. split; [done|].
  assert (Hget : get_connection opened freed s1
    = (inr (default c (head (idle s))),
       with_pool (Queue.mk (Queue.maxsize (pool s)) (tail (idle s ++ [c]))) s,
       [])).
  { destruct (idle s) as [|c0 rest] eqn:Hidle.
    - rewrite (get_connection_idle s1 c [] opened freed);
        [done | unfold s1, idle in *; simpl; by rewrite ?Hidle].
    - rewrite (get_connection_idle s1 c0 (rest ++ [c]) opened freed);
        [done | unfold s1, idle in *; simpl; by rewrite ?Hidle]. }
  split; [exact Hget|].
  intros Hidle. rewrite Hget, Hidle. simpl.
  destruct s as [N' [ms its] a]. unfold idle in Hidle; simpl in *. by subst.
Qed.

Lemma serving_two_sessions :
  serving 2 (Build_pool 2 (Queue.mk 2 [1%nat]) 2) [2%nat].
Proof.
  pose proof (serving_get 2 _ _ (Returns 1%nat) _ _ _ (serving_init 2) eq_refl) as H1.
  pose proof (serving_get 2 _ _ (Returns 2%nat) _ _ _ H1 eq_refl) as H2.
  exact (serving_release 2 _ [2%nat] 1%nat [] (Returns ()) (Returns ())
           _ _ _ H2 eq_refl).
Qed.

Lemma release_then_get_connection_witness :
  release_connection 2%nat (Returns ()) (Returns ())
    (Build_pool 2 (Queue.mk 2 [1%nat]) 2)
  = (inr (), Build_pool 2 (Queue.mk 2 [1%nat; 2%nat]) 2, [Probe 2%nat])
  ∧ 2 = 2
  ∧ get_connection (Returns 3%nat) None (Build_pool 2 (Queue.mk 2 [1%nat; 2%nat]) 2)
    = (inr 1%nat, Build_pool 2 (Queue.mk 2 [2%nat]) 2, [])
  ∧ ([1%nat] = [] →
     get_connection (Returns 3%nat) None (Build_pool 2 (Queue.mk 2 [1%nat; 2%nat]) 2)
     = (inr 2%nat, Build_pool 2 (Queue.mk 2 [1%nat]) 2, [])).
Proof.
  apply (release_then_get_connection 2 (Build_pool 2 (Queue.mk 2 [1%nat]) 2)
           [2%nat] 2%nat (Returns ()) (Returns 3%nat) None).
  - exact serving_two_sessions.
  - apply list_elem_of_here.
Defined.

(** C6, as stated, fails.  On a pool of two, sessions 1 and 2 are opened and
    1 is released; the caller still holds 2.  It releases 2 with a probe
    that succeeds, and the next [get_connection] returns session 1. *)
Lemma release_then_get_connection_other_session :
  calls [GetConnection (Returns 1%nat) None;
         GetConnection (Returns 2%nat) None;
         ReleaseConnection 1%nat (Returns ()) (Returns ())] (init 2)
  = (inr (), Build_pool 2 (Queue.mk 2 [1%nat]) 2,
     [Active 1; Connect; Active 2; Connect; Probe 1%nat])
  ∧ serving 2 (Build_pool 2 (Queue.mk 2 [1%nat]) 2) [2%nat]
  ∧ (release_connection 2%nat (Returns ()) (Returns ());;
     get_connection (Returns 3%nat) None) (Build_pool 2 (Queue.mk 2 [1%nat]) 2)
    = (inr 1%nat, Build_pool 2 (Queue.mk 2 [2%nat]) 2, [Probe 2%nat])
  ∧ 1%nat ≠ 2%nat.
Proof.
  split; [reflexivity|]. split; [exact serving_two_sessions|].
  split; [reflexivity | discriminate].
Qed.

(** ** [close_all] *)

(** When every [close()] returns: [close_all] empties the idle queue, calls
    [close()] on every idle session, in queue order, and decrements the
    counter once for each, so that it ends at its old value minus the number
    of idle sessions.  If that is below [max_connections] and [connect]
    succeeds, a following [get_connection] opens a new session and returns
    it. *)
Lemma close_all_then_get_connection s closed :
  Forall (λ c, closed c = Returns ()) (idle s) →
  let n := length (idle s) in
  let s' := Build_pool (max_connections s) (Queue.mk (Queue.maxsize (pool s)) [])
              (active_connections s - Z.of_nat n) in
  ∃ log,
    close_all closed s = (inr (), s', log)
    ∧ closed_sessions log = idle s
    ∧ counter_values log = (λ i : nat, active_connections s - Z.of_nat i) <$> seq 1 n
    ∧ ∀ c freed,
        active_connections s' < max_connections s' →
        get_connection (Returns c) freed s'
        = (inr c, with_active (active_connections s' + 1) s',
           [Active (active_connections s' + 1); Connect]).
Proof.
  intros Hok n s'.
  destruct (drain_all_closed closed (idle s) (active_connections s) Hok) as [Hfinal Hvalues].
  exists (drain closed (idle s) (active_connections s)).2.
  split; [|split; [|split]].
  - rewrite close_all_drain, Hfinal. done.
  - apply drain_closes.
  - exact Hvalues.
  - intros c freed Hlt. by apply get_connection_new.
Qed.

(** A [close()] that raises inside [close_all] is logged and the loop goes
    on, past the decrement: the session has left the queue and is still
    counted. *)
Lemma close_all_close_raises s closed c code :
  idle s = [c] →
  closed c = Raises code →
  close_all closed s
  = (inr (), Build_pool (max_connections s) (Queue.mk (Queue.maxsize (pool s)) [])
               (active_connections s),
     [Close c]).
Proof.
  intros Hidle Hc. rewrite close_all_drain, Hidle. simpl. by rewrite Hc.
Qed.

Lemma drain_all_raise closed its a :
  Forall (λ c, is_returns (closed c) = false) its →
  drain closed its a = (a, Close <$> its).
Proof.
  induction 1 as [|c rest Hc _ IH]; simpl; [done|].
  destruct (closed c); [done|]. by rewrite IH.
Qed.

(** C7 fails on the code where [close()] raises inside [close_all].  The
    [except Exception] clause of the loop is entered before the decrement,
    so that a session whose [close()] raises leaves the queue and stays
    counted (where [release_connection] decrements whatever [close()] does).
    When every idle session is lost in this way and the counter was at
    [max_connections], [close_all] leaves a pool with no session and no free
    slot: the following [get_connection] waits and raises
    [TimeoutException], though [connect] would open a session. *)
Theorem close_all_failed_close_disables_pool s closed opened :
  idle s ≠ [] →
  Forall (λ c, is_returns (closed c) = false) (idle s) →
  max_connections s ≤ active_connections s →
  (close_all closed;; get_connection opened None) s
  = (inl TimeoutException,
     Build_pool (max_connections s) (Queue.mk (Queue.maxsize (pool s)) [])
       (active_connections s),
     (Close <$> idle s) ++ [Wait]).
Proof.
  intros _ Hraise Hfull. unfold mbind, M_bind.
  rewrite close_all_drain, (drain_all_raise _ _ _ Hraise). simpl.
  by rewrite get_connection_wait.
Qed.

Lemma close_all_failed_close_disables_pool_witness :
  calls [GetConnection (Returns 1%nat) None;
         ReleaseConnection 1%nat (Returns ()) (Returns ())] (init 1)
  = (inr (), Build_pool 1 (Queue.mk 1 [1%nat]) 1, [Active 1; Connect; Probe 1%nat])
  ∧ (close_all (λ _, Raises 0);; get_connection (Returns 2%nat) None)
      (Build_pool 1 (Queue.mk 1 [1%nat]) 1)
    = (inl TimeoutException, Build_pool 1 (Queue.mk 1 []) 1, [Close 1%nat; Wait]).
Proof.
  split; [reflexivity|].
  apply (close_all_failed_close_disables_pool
           (Build_pool 1 (Queue.mk 1 [1%nat]) 1) (λ _, Raises 0) (Returns 2%nat));
    [discriminate | by repeat constructor | simpl; lia].
Defined.

(** C8. After [close_all] the idle queue is empty, whatever the [close()]
    calls did, and a second [close_all] changes nothing and calls nothing:
    two calls in a row have the effect of one. *)
Theorem close_all_idempotent s closed1 closed2 :
  idle (close_all closed1 s).1.2 = []
  ∧ close_all closed2 (close_all closed1 s).1.2
    = (inr (), (close_all closed1 s).1.2, [])
  ∧ (close_all closed1;; close_all closed2) s = close_all closed1 s.
Proof.
  assert (Hempty : idle (close_all closed1 s).1.2 = [])
    by (by rewrite close_all_drain).
  split; [exact Hempty|].
  split; [by apply close_all_empty|].
  unfold mbind, M_bind.
  pose proof (close_all_drain closed1 s) as Hfirst.
  destruct (close_all closed1 s) as [[r s1] l1]. simpl in Hempty.
  injection Hfirst as -> _ _.
  rewrite (close_all_empty closed2 s1 Hempty). by rewrite app_nil_r.
Qed.

(** ** [execute_query] *)

Lemma fill_row_enough row columns : ∀ i row_dict0,
  (length columns + i ≤ length row)%nat →
  fill_row row i columns row_dict0
  = inr (foldl (λ d p, <[p.1 := p.2]> d) row_dict0 (zip columns (drop i row))).
Proof.
  induction columns as [|col rest IH]; intros i d Hlen; simpl; [done|].
  simpl in Hlen.
  destruct (lookup_lt_is_Some_2 row i) as [v Hv]; [lia|].
  rewrite Hv, (drop_S _ _ _ Hv). simpl. apply IH. lia.
Qed.

(** A row shorter than the description makes [row[i]] raise. *)
Lemma fill_row_short row columns : ∀ i row_dict0,
  (length row < length columns + i)%nat →
  fill_row row i columns row_dict0 = inl IndexError ∨ (length row < i)%nat.
Proof.
  induction columns as [|col rest IH]; intros i d Hlen; simpl in *; [right; lia|].
  destruct (row !! i) as [v|] eqn:Hv; [|by left].
  destruct (IH (S i) (<[col:=v]> d)) as [H|H]; [lia | by left |].
  apply lookup_lt_Some in Hv. lia.
Qed.

Lemma rows_to_dicts_enough columns rows :
  Forall (λ row, length columns ≤ length row)%nat rows →
  rows_to_dicts columns rows = inr (row_dict columns <$> rows).
Proof.
  induction 1 as [|row rows Hrow _ IH]; simpl; [done|].
  rewrite fill_row_enough by lia. rewrite IH. done.
Qed.

Lemma foldl_insert_other (k : string) (l : list (string * Value)) :
  ∀ d0 : gmap string Value,
  k ∉ l.*1 → foldl (λ d p, <[p.1 := p.2]> d) d0 l !! k = d0 !! k.
Proof.
  induction l as [|[k' v'] l IH]; intros d0 Hk; simpl; [done|].
  simpl in Hk. apply not_elem_of_cons in Hk as [Hne Hk].
  rewrite IH by done. by apply lookup_insert_ne.
Qed.

Lemma foldl_insert_lookup (k : string) (v : Value) (l : list (string * Value)) :
  ∀ d0 : gmap string Value,
  NoDup l.*1 → (k, v) ∈ l →
  foldl (λ d p, <[p.1 := p.2]> d) d0 l !! k = Some v.
Proof.
  induction l as [|[k' v'] l IH]; intros d0 Hnd Hin; simpl.
  - by apply elem_of_nil in Hin.
  - simpl in Hnd. apply NoDup_cons in Hnd as [Hfresh Hnd].
    apply elem_of_cons in Hin as [Heq|Hin].
    + injection Heq as <- <-. rewrite foldl_insert_other by done.
      apply lookup_insert_eq.
    + by apply IH.
Qed.

(** With column names that differ, the mapping of a row sends every column
    name to the value at the column's position. *)
Lemma row_dict_lookup columns row i col_name :
  NoDup columns →
  (length columns ≤ length row)%nat →
  columns !! i = Some col_name →
  row_dict columns row !! col_name = row !! i.
Proof.
  intros Hnd Hlen Hcol.
  destruct (lookup_lt_is_Some_2 row i) as [v Hv].
  { apply lookup_lt_Some in Hcol. lia. }
  rewrite Hv. unfold row_dict. apply foldl_insert_lookup.
  - by rewrite fst_zip.
  - by apply (elem_of_lookup_zip_with_2 pair columns row col_name v (col_name, v) i).
Qed.

(** With no session, none is released. *)
Lemma execute_query_no_session s opened freed outcome alive closed e s1 l1 :
  get_connection opened freed s = (inl e, s1, l1) →
  execute_query opened freed outcome alive closed s = (inl e, s1, l1).
Proof.
  intros Hget. unfold execute_query, attempt, try_finally, try_except,
    any_exception, raise, mbind, mret, M_bind, M_ret.
  rewrite Hget. simpl. by rewrite !app_nil_r.
Qed.

(** C9. When [execute_query] has got a session, it runs the query on it and
    then sends it through [release_connection], in the [finally] clause, in
    every case: what [execute_query] gives is what the query gave, the list
    of the rows' mappings in the order of the rows, or the exception that
    the cursor raised, and the pool and the log are those of
    [release_connection] run after the query. *)
Theorem execute_query_releases s opened freed outcome alive closed c s1 l1 :
  get_connection opened freed s = (inr c, s1, l1) →
  ∃ s2 l2,
    release_connection c alive closed s1 = (inr (), s2, l2)
    ∧ execute_query opened freed outcome alive closed s
      = (query_result outcome, s2, l1 ++ Run c :: l2)
    ∧ (∀ code, outcome = QueryRaises code →
         query_result outcome = inl (DriverError code))
    ∧ (∀ description rows,
         outcome = QueryReturns description rows →
         Forall (λ row, length (columns_of description) ≤ length row)%nat rows →
         query_result outcome = inr (row_dict (columns_of description) <$> rows)).
Proof.
  intros Hget.
  assert (Hrel : ∃ s2 l2, release_connection c alive closed s1 = (inr (), s2, l2))
    by (destruct (release_connection_cases c alive closed s1) as [-> | ->]; eauto).
  destruct Hrel as (s2 & l2 & Hrel). exists s2, l2.
  split; [exact Hrel|]. split; [|split].
  - unfold execute_query, run_query, attempt, try_finally, try_except,
      any_exception, raise, emit, mbind, mret, M_bind, M_ret.
    rewrite Hget. simpl.
    destruct (query_result outcome) as [e|dicts]; simpl; by rewrite Hrel.
  - by intros code ->.
  - intros description rows -> Hrows. simpl. by apply rows_to_dicts_enough.
Qed.

Lemma execute_query_releases_witness :
  ∃ s2 l2,
    release_connection 1%nat (Raises 7) (Returns ()) (with_active 1 (init 1))
    = (inr (), s2, l2)
    ∧ execute_query (Returns 1%nat) None (QueryRaises 5) (Raises 7) (Returns ()) (init 1)
      = (inl (DriverError 5), s2, [Active 1; Connect] ++ Run 1%nat :: l2)
    ∧ (∀ code, QueryRaises 5 = QueryRaises code →
         query_result (QueryRaises 5) = inl (DriverError code))
    ∧ (∀ description rows,
         QueryRaises 5 = QueryReturns description rows →
         Forall (λ row, length (columns_of description) ≤ length row)%nat rows →
         query_result (QueryRaises 5)
         = inr (row_dict (columns_of description) <$> rows)).
Proof.
  apply (execute_query_releases (init 1) (Returns 1%nat) None (QueryRaises 5)
           (Raises 7) (Returns ()) 1%nat (with_active 1 (init 1))
           [Active 1; Connect]).
  reflexivity.
Defined.

Example execute_query_rows :
  execute_query (Returns 1%nat) None
    (QueryReturns (Some ["country_code"; "currency_code"])
       [[VStr "US"; VStr "USD"]; [VStr "JP"; VStr "JPY"]])
    (Returns ()) (Returns ()) (init 1)
  = (inr [ {["country_code" := VStr "US"; "currency_code" := VStr "USD"]};
           {["country_code" := VStr "JP"; "currency_code" := VStr "JPY"]} ],
     Build_pool 1 (Queue.mk 1 [1%nat]) 1,
     [Active 1; Connect; Run 1%nat; Probe 1%nat]).
Proof.
  unfold execute_query, run_query, attempt, try_finally, try_except,
    any_exception, raise, emit, mbind, mret, M_bind, M_ret. simpl.
  repeat f_equal; apply map_eq; intros k; unfold row_dict; simpl;
    repeat (rewrite lookup_insert; case_decide; subst; try done).
Qed.

(** * Further properties of the pool *)

Lemma seq_bind_shift {B} (g : nat → list B) n : ∀ k,
  seq (S k) n ≫= g = seq k n ≫= λ i, g (S i).
Proof.
  induction n as [|n IH]; intros k; simpl; [done|]. by rewrite IH.
Qed.

Lemma get_connections_new cs : ∀ s,
  idle s = [] →
  active_connections s + Z.of_nat (length cs) ≤ max_connections s →
  get_connections cs s
  = (inr cs, with_active (active_connections s + Z.of_nat (length cs)) s,
     seq 1 (length cs) ≫= λ i : nat, [Active (active_connections s + Z.of_nat i); Connect]).
Proof.
  induction cs as [|c cs IH]; intros s Hidle Hroom.
  - simpl. destruct s as [N q a]. unfold mret, M_ret, with_active; simpl.
    by replace (a + Z.of_nat 0) with a by lia.
  - simpl in Hroom. simpl.
    unfold mbind at 1, M_bind at 1.
    rewrite (get_connection_new s c None Hidle) by lia.
    unfold mbind at 1, M_bind at 1.
    rewrite (IH (with_active (active_connections s + 1) s)) by (done || simpl; lia).
    simpl. rewrite app_nil_r. f_equal; [f_equal|].
    + destruct s as [N q a]. unfold with_active; simpl. f_equal. lia.
    + do 2 f_equal. fold (@mbind list _ nat Effect).
      rewrite !seq_bind_shift.
      apply list_bind_ext; [|done]. intros i. simpl. do 2 f_equal. lia.
Qed.

(** X1. A pool whose idle queue is empty and whose counter is [n] below
    [max_connections] opens a session for each of the next [n] calls of
    [get_connection] and returns it, without waiting; the call after these
    waits and raises [TimeoutException] (nobody releasing meanwhile),
    whatever [connect] would answer. *)
Theorem pool_opens_up_to_max s cs opened :
  idle s = [] →
  active_connections s + Z.of_nat (length cs) = max_connections s →
  get_connections cs s
  = (inr cs, with_active (max_connections s) s,
     seq 1 (length cs) ≫= λ i : nat, [Active (active_connections s + Z.of_nat i); Connect])
  ∧ get_connection opened None (with_active (max_connections s) s)
    = (inl TimeoutException, with_active (max_connections s) s, [Wait]).
Proof.
  intros Hidle Hsum. split.
  - rewrite get_connections_new by (done || lia). by rewrite Hsum.
  - apply get_connection_wait; [done | simpl; lia].
Qed.

Lemma pool_opens_up_to_max_witness :
  get_connections [4%nat; 5%nat] (init 2)
  = (inr [4%nat; 5%nat], with_active 2 (init 2),
     [Active 1; Connect; Active 2; Connect])
  ∧ get_connection (Returns 6%nat) None (with_active 2 (init 2))
    = (inl TimeoutException, with_active 2 (init 2), [Wait]).
Proof.
  apply (pool_opens_up_to_max (init 2) [4%nat; 5%nat] (Returns 6%nat));
    reflexivity.
Defined.

(** X2. A session whose probe fails is replaced without the counter
    moving: on a pool with no idle session and the counter within the bound,
    [release_connection] of the dead session followed by [get_connection]
    closes the dead session, opens a new one and leaves the pool as it was
    before the two calls. *)
Theorem dead_session_is_replaced s c code closed c' freed :
  idle s = [] →
  active_connections s ≤ max_connections s →
  (release_connection c (Raises code) closed;;
   get_connection (Returns c') freed) s
  = (inr c', s,
     [Probe c; Close c; Active (active_connections s - 1);
      Active (active_connections s); Connect]).
Proof.
  intros Hidle Hle. unfold mbind, M_bind.
  rewrite (release_connection_discard s c (Raises code) closed)
    by (left; by exists code).
  rewrite get_connection_new by (done || simpl; lia).
  destruct s as [N q a]. unfold with_active; simpl.
  by replace (a - 1 + 1) with a by lia.
Qed.

Lemma dead_session_is_replaced_witness :
  (release_connection 1%nat (Raises 7) (Raises 8);;
   get_connection (Returns 2%nat) None) (with_active 1 (init 1))
  = (inr 2%nat, with_active 1 (init 1),
     [Probe 1%nat; Close 1%nat; Active 0; Active 1; Connect]).
Proof.
  apply (dead_session_is_replaced (with_active 1 (init 1)) 1%nat 7%nat
           (Raises 8) 2%nat None); [reflexivity | simpl; lia].
Defined.

(** X3. For a caller that releases only what it holds, the sessions in
    circulation, idle in the queue or held by the caller, are never more
    than [max_connections], and the idle queue never holds more than its
    [maxsize]. *)
Theorem sessions_in_circulation_bounded N s held :
  0 ≤ N →
  serving N s held →
  Z.of_nat (length (idle s) + length held) ≤ max_connections s
  ∧ Queue.qsize (pool s) ≤ Queue.maxsize (pool s).
Proof.
  intros HN Hs.
  destruct (serving_invariant N s held Hs) as (Hmax & Hsize & Hcount & Hbound).
  unfold Queue.qsize, idle in *. split; lia.
Qed.

Lemma sessions_in_circulation_bounded_witness :
  Z.of_nat (length [1%nat] + length [2%nat]) ≤ 2
  ∧ Queue.qsize (Queue.mk 2 [1%nat]) ≤ 2.
Proof.
  apply (sessions_in_circulation_bounded 2
           (Build_pool 2 (Queue.mk 2 [1%nat]) 2) [2%nat]);
    [lia | exact serving_two_sessions].
Defined.

Lemma drain_counts closed its : ∀ a,
  (drain closed its a).1
  = a - Z.of_nat (length (filter (λ c, is_returns (closed c)) its)).
Proof.
  induction its as [|c rest IH]; intros a; simpl; [lia|].
  destruct (closed c) as [[]|code] eqn:Hc.
  - rewrite filter_cons_True by (rewrite Hc; exact I).
    specialize (IH (a - 1)). destruct (drain closed rest (a - 1)); simpl in *.
    lia.
  - rewrite filter_cons_False by (rewrite Hc; intros []).
    specialize (IH a). by destruct (drain closed rest a).
Qed.

(** X4. [close_all] takes every idle session out of the queue and calls
    [close()] on each once, in queue order, and never raises; the counter
    goes down by the number of sessions whose [close()] returned, so that
    every session whose [close()] raised stays counted though it is gone
    from the queue. *)
Theorem close_all_counts_returned_closes s closed :
  ∃ log,
    close_all closed s
    = (inr (),
       Build_pool (max_connections s) (Queue.mk (Queue.maxsize (pool s)) [])
         (active_connections s
          - Z.of_nat (length (filter (λ c, is_returns (closed c)) (idle s)))),
       log)
    ∧ closed_sessions log = idle s.
Proof.
  exists (drain closed (idle s) (active_connections s)).2. split.
  - by rewrite close_all_drain, drain_counts.
  - apply drain_closes.
Qed.

(** X5. The counter has no floor.  When a fresh pool is given, through
    [release_connection], a session that it never handed out and whose probe
    fails, the counter goes to [-1], and the pool then opens
    [max_connections + 1] sessions, one more than its bound. *)
Theorem foreign_release_admits_one_more N c code closed cs :
  0 ≤ N →
  Z.of_nat (length cs) = N + 1 →
  (release_connection c (Raises code) closed;; get_connections cs) (init N)
  = (inr cs, with_active N (init N),
     [Probe c; Close c; Active (-1)]
     ++ (seq 1 (length cs) ≫= λ i : nat, [Active (-1 + Z.of_nat i); Connect])).
Proof.
  intros HN Hlen. unfold mbind at 1, M_bind.
  rewrite (release_connection_discard (init N) c (Raises code) closed)
    by (left; by exists code).
  rewrite get_connections_new by (done || simpl; lia).
  simpl. rewrite Hlen. unfold with_active; simpl.
  change (0 - 1) with (-1). by replace (-1 + (N + 1)) with N by lia.
Qed.

Lemma foreign_release_admits_one_more_witness :
  (release_connection 9%nat (Raises 0) (Returns ());;
   get_connections [1%nat; 2%nat]) (init 1)
  = (inr [1%nat; 2%nat], with_active 1 (init 1),
     [Probe 9%nat; Close 9%nat; Active (-1);
      Active 0; Connect; Active 1; Connect]).
Proof.
  apply (foreign_release_admits_one_more 1 9%nat 0%nat (Returns ())
           [1%nat; 2%nat]); [lia | reflexivity].
Defined.

(** * Further properties of [execute_query] *)

Lemma execute_query_with_session s opened freed outcome alive closed c s1 l1 s2 l2 :
  get_connection opened freed s = (inr c, s1, l1) →
  release_connection c alive closed s1 = (inr (), s2, l2) →
  execute_query opened freed outcome alive closed s
  = (query_result outcome, s2, l1 ++ Run c :: l2).
Proof.
  intros Hget Hrel.
  unfold execute_query, run_query, attempt, try_finally, try_except,
    any_exception, raise, emit, mbind, mret, M_bind, M_ret.
  rewrite Hget. simpl.
  destruct (query_result outcome) as [e|dicts]; simpl; by rewrite Hrel.
Qed.

(** X6. With an idle session in the queue, [execute_query] runs the query
    on the session at the front, opens none (whatever the counter is), and,
    the probe succeeding, puts the session back at the end of the queue:
    the idle sessions are used in turn and the counter does not move. *)
Theorem execute_query_reuses_idle_session s c rest opened freed outcome closed :
  idle s = c :: rest →
  Queue.full (Queue.mk (Queue.maxsize (pool s)) rest) = false →
  execute_query opened freed outcome (Returns ()) closed s
  = (query_result outcome,
     with_pool (Queue.mk (Queue.maxsize (pool s)) (rest ++ [c])) s,
     [Run c; Probe c]).
Proof.
  intros Hidle Hroom.
  erewrite (execute_query_with_session s opened freed outcome (Returns ()) closed
              c _ [] _ [Probe c] (get_connection_idle s c rest opened freed Hidle));
    [done|].
  by rewrite release_connection_put.
Qed.

Lemma execute_query_reuses_idle_session_witness :
  execute_query (Returns 7%nat) None (QueryRaises 3) (Returns ()) (Returns ())
    (Build_pool 3 (Queue.mk 3 [1%nat; 2%nat]) 2)
  = (inl (DriverError 3), Build_pool 3 (Queue.mk 3 [2%nat; 1%nat]) 2,
     [Run 1%nat; Probe 1%nat]).
Proof.
  apply (execute_query_reuses_idle_session
           (Build_pool 3 (Queue.mk 3 [1%nat; 2%nat]) 2) 1%nat [2%nat]);
    reflexivity.
Defined.

Lemma release_connection_returns c alive closed s :
  ∃ s2 l2, release_connection c alive closed s = (inr (), s2, l2).
Proof.
  destruct (release_connection_cases c alive closed s) as [-> | ->]; eauto.
Qed.

Lemma get_connection_takes_one opened s r s1 l1 :
  get_connection opened None s = (r, s1, l1) →
  max_connections s1 = max_connections s
  ∧ Queue.maxsize (pool s1) = Queue.maxsize (pool s)
  ∧ checked_out s1
    = checked_out s + match r with inr _ => 1 | inl _ => 0 end.
Proof.
  unfold checked_out. destruct (idle s) as [|c rest] eqn:Hidle.
  - destruct (Z.lt_ge_cases (active_connections s) (max_connections s)) as [Hlt|Hge].
    + destruct opened as [c|code].
      * rewrite (get_connection_new _ _ _ Hidle Hlt). intros [= <- <- _].
        unfold idle in *; simpl. rewrite Hidle. simpl. repeat split; lia.
      * rewrite (get_connection_refused _ _ _ Hidle Hlt). intros [= <- <- _].
        rewrite Hidle. simpl. repeat split; lia.
    + rewrite (get_connection_wait _ _ _ Hidle Hge). intros [= <- <- _].
      rewrite Hidle. simpl. repeat split; lia.
  - rewrite (get_connection_idle _ _ _ _ _ Hidle). intros [= <- <- _].
    unfold idle in *; simpl. repeat split; lia.
Qed.

Lemma release_connection_gives_one c alive closed s r s1 l1 :
  release_connection c alive closed s = (r, s1, l1) →
  max_connections s1 = max_connections s
  ∧ Queue.maxsize (pool s1) = Queue.maxsize (pool s)
  ∧ checked_out s1 = checked_out s - 1.
Proof.
  unfold checked_out.
  destruct (release_connection_cases c alive closed s) as [-> | ->];
    intros [= _ <- _]; unfold idle; simpl; rewrite ?length_app; simpl;
    repeat split; lia.
Qed.

(** X7. [execute_query] gives back the session it takes.  Whatever the
    pool, the answers of the driver and the outcome of the query (nobody
    else releasing meanwhile), the number of sessions that the pool counts
    without having them in its idle queue is the same after the call as
    before, and the bounds of the pool are unchanged: the session that
    [get_connection] took out, from the queue or by opening it, has gone
    through [release_connection], back to the queue or off the counter. *)
Theorem execute_query_returns_its_session s opened outcome alive closed :
  checked_out (execute_query opened None outcome alive closed s).1.2 = checked_out s
  ∧ max_connections (execute_query opened None outcome alive closed s).1.2
    = max_connections s
  ∧ Queue.maxsize (pool (execute_query opened None outcome alive closed s).1.2)
    = Queue.maxsize (pool s).
Proof.
  destruct (get_connection opened None s) as [[[e|c] s1] l1] eqn:Hget.
  - rewrite (execute_query_no_session _ _ _ _ _ _ _ _ _ Hget). simpl.
    destruct (get_connection_takes_one _ _ _ _ _ Hget) as (? & ? & ?).
    repeat split; lia.
  - destruct (release_connection_returns c alive closed s1) as (s2 & l2 & Hrel).
    rewrite (execute_query_with_session _ _ _ _ _ _ _ _ _ _ _ Hget Hrel). simpl.
    destruct (get_connection_takes_one _ _ _ _ _ Hget) as (? & ? & ?).
    destruct (release_connection_gives_one _ _ _ _ _ _ _ Hrel) as (? & ? & ?).
    repeat split; lia.
Qed.

(** X8. After a query, whatever its outcome and whatever the probe says,
    [DatabricksClient.close] brings a pool that was fresh before the query
    back to its fresh state, provided [close()] of the session returns:
    nothing stays counted and nothing stays in the queue. *)
Theorem query_then_close_restores_fresh_pool N c freed outcome alive closed1 closed2 :
  0 < N →
  closed2 c = Returns () →
  ∃ log,
    (attempt (execute_query (Returns c) freed outcome alive closed1);;
     client_close closed2) (init N)
    = (inr (), init N, log).
Proof.
  intros HN Hclose.
  assert (Hget : get_connection (Returns c) freed (init N)
                 = (inr c, with_active 1 (init N), [Active 1; Connect]))
    by (by rewrite get_connection_new by (done || simpl; lia)).
  assert (Hend : ∃ s2 l2 l3,
            release_connection c alive closed1 (with_active 1 (init N)) = (inr (), s2, l2)
            ∧ close_all closed2 s2 = (inr (), init N, l3)).
  { destruct alive as [[]|code].
    - do 3 eexists. split.
      + apply release_connection_put. unfold Queue.full, Queue.qsize; simpl.
        apply andb_false_iff. right. apply Z.leb_gt. lia.
      + rewrite close_all_drain. simpl. rewrite Hclose. reflexivity.
    - do 3 eexists. split.
      + apply release_connection_discard. left. by exists code.
      + rewrite close_all_drain. reflexivity. }
  destruct Hend as (s2 & l2 & l3 & Hrel & Hdrain).
  eexists. unfold mbind, M_bind, attempt, client_close, try_except.
  rewrite (execute_query_with_session _ _ _ _ _ _ _ _ _ _ _ Hget Hrel).
  rewrite Hdrain. reflexivity.
Qed.

Lemma query_then_close_restores_fresh_pool_witness :
  ∃ log,
    (attempt (execute_query (Returns 1%nat) None (QueryRaises 2) (Returns ()) (Returns ()));;
     client_close (λ _, Returns ())) (init 5)
    = (inr (), init 5, log).
Proof.
  apply (query_then_close_restores_fresh_pool 5 1%nat None (QueryRaises 2)
           (Returns ()) (Returns ()) (λ _, Returns ())); [lia | reflexivity].
Defined.

Lemma fill_row_raises row columns : ∀ i row_dict0 e,
  fill_row row i columns row_dict0 = inl e → e = IndexError.
Proof.
  induction columns as [|col rest IH]; intros i d e; simpl; [done|].
  destruct (row !! i); [apply IH | congruence].
Qed.

Lemma fill_row_returns row columns : ∀ i row_dict0 d,
  fill_row row i columns row_dict0 = inr d →
  (length columns ≤ length row - i)%nat.
Proof.
  induction columns as [|col rest IH]; intros i d0 d; simpl; [lia|].
  destruct (row !! i) as [v|] eqn:Hv; [|done].
  intros H. apply IH in H. apply lookup_lt_Some in Hv. lia.
Qed.

Lemma rows_to_dicts_short columns rows :
  Exists (λ row, length row < length columns)%nat rows →
  rows_to_dicts columns rows = inl IndexError.
Proof.
  induction rows as [|row rows IH]; intros Hex; [by apply Exists_nil in Hex|].
  simpl. destruct (fill_row row 0 columns ∅) as [e|d] eqn:Hrow.
  - by rewrite (fill_row_raises _ _ _ _ _ Hrow).
  - apply fill_row_returns in Hrow.
    apply Exists_cons in Hex as [Hshort|Hex]; [lia|].
    by rewrite (IH Hex).
Qed.

(** X9. When [fetchall()] gives a row that has fewer values than the
    cursor's description has columns, [execute_query] raises [IndexError]
    (from [row[i]]), and no mapping is returned, not even for the rows
    before. *)
Theorem execute_query_short_row s opened freed description rows alive closed c s1 l1 :
  get_connection opened freed s = (inr c, s1, l1) →
  Exists (λ row, length row < length (columns_of description))%nat rows →
  (execute_query opened freed (QueryReturns description rows) alive closed s).1.1
  = inl IndexError.
Proof.
  intros Hget Hshort.
  destruct (release_connection_cases c alive closed s1) as [Hrel|Hrel];
    rewrite (execute_query_with_session _ _ _ _ _ _ _ _ _ _ _ Hget Hrel); simpl;
    by apply rows_to_dicts_short.
Qed.

Lemma execute_query_short_row_witness :
  (execute_query (Returns 1%nat) None
     (QueryReturns (Some ["country_code"; "country"])
        [[VStr "US"; VStr "United States"]; [VStr "JP"]])
     (Returns ()) (Returns ()) (init 1)).1.1
  = inl IndexError.
Proof.
  apply (execute_query_short_row (init 1) (Returns 1%nat) None
           (Some ["country_code"; "country"])
           [[VStr "US"; VStr "United States"]; [VStr "JP"]]
           (Returns ()) (Returns ()) 1%nat (with_active 1 (init 1))
           [Active 1; Connect]).
  - reflexivity.
  - apply Exists_cons_tl, Exists_cons_hd. simpl. lia.
Defined.

Lemma foldl_insert_last (k : string) (v : Value) (l : list (string * Value)) :
  ∀ (d0 : gmap string Value) (j : nat),
  l !! j = Some (k, v) →
  (∀ j' v', (j < j')%nat → l !! j' ≠ Some (k, v')) →
  foldl (λ d p, <[p.1 := p.2]> d) d0 l !! k = Some v.
Proof.
  induction l as [|[k' v'] l IH]; intros d0 j Hj Hlast; [done|].
  destruct j as [|j]; simpl in *.
  - injection Hj as -> ->. rewrite foldl_insert_other; [apply lookup_insert_eq|].
    intros Hin. apply list_elem_of_fmap in Hin as ([k1 v1] & -> & Hin).
    apply list_elem_of_lookup in Hin as [j' Hj'].
    by apply (Hlast (S j') v1); [lia|].
  - apply (IH _ j Hj). intros j' v'' Hlt. apply (Hlast (S j') v''). lia.
Qed.

(** X10. When the rows are turned into mappings without an error, there is
    one mapping per row, in the order of the rows, and the mapping of a row
    sends a column name to the value that the row has at the last column of
    that name: with repeated column names the earlier columns are lost. *)
Theorem rows_to_dicts_lookup columns : ∀ rows dicts,
  rows_to_dicts columns rows = inr dicts →
  length dicts = length rows
  ∧ ∀ i row d j col_name,
      rows !! i = Some row →
      dicts !! i = Some d →
      columns !! j = Some col_name →
      (∀ j', (j < j')%nat → columns !! j' ≠ Some col_name) →
      is_Some (row !! j) ∧ d !! col_name = row !! j.
Proof.
  induction rows as [|row rows IH]; intros dicts Hrun; simpl in Hrun.
  - injection Hrun as <-. split; [done|]. intros i row d j col Hrow. done.
  - destruct (fill_row row 0 columns ∅) as [e|d0] eqn:Hrow; [done|].
    destruct (rows_to_dicts columns rows) as [e|rest] eqn:Hrest; [done|].
    injection Hrun as <-. destruct (IH rest eq_refl) as [Hlen Hall].
    split; [simpl; by rewrite Hlen|].
    intros [|i] row' d j col Hi Hd Hcol Hlast; simpl in *; [|by eapply Hall].
    injection Hi as <-. injection Hd as <-.
    pose proof (fill_row_returns _ _ _ _ _ Hrow) as Hwide.
    rewrite fill_row_enough in Hrow by lia. injection Hrow as <-.
    rewrite drop_0.
    destruct (lookup_lt_is_Some_2 row j) as [v Hv].
    { apply lookup_lt_Some in Hcol. lia. }
    split; [by exists v|]. rewrite Hv.
    apply (foldl_insert_last col v _ ∅ j).
    + rewrite lookup_zip_with, Hcol. simpl. by rewrite Hv.
    + intros j' v' Hlt Hj'.
      apply lookup_zip_with_Some in Hj' as (col' & v'' & Heq & Hcol' & _).
      injection Heq as <- <-. by apply (Hlast j').
Qed.

Lemma rows_to_dicts_lookup_witness :
  length [ ({["currency_code" := VStr "USD"]} : gmap string Value) ] = length [[VStr "US"; VStr "USD"]]
  ∧ ∀ i row d j col_name,
      [[VStr "US"; VStr "USD"]] !! i = Some row →
      [ ({["currency_code" := VStr "USD"]} : gmap string Value) ] !! i = Some d →
      ["currency_code"; "currency_code"] !! j = Some col_name →
      (∀ j', (j < j')%nat → ["currency_code"; "currency_code"] !! j' ≠ Some col_name) →
      is_Some (row !! j) ∧ d !! col_name = row !! j.
Proof.
  apply (rows_to_dicts_lookup ["currency_code"; "currency_code"]
           [[VStr "US"; VStr "USD"]]).
  reflexivity.
Defined.

(** * [test_connection] *)

Lemma test_sql_no_session s opened freed ran alive closed e s1 l1 :
  get_connection opened freed s = (inl e, s1, l1) →
  test_sql opened freed ran alive closed s = (inl e, s1, l1).
Proof.
  intros Hget. unfold test_sql, try_except, any_exception, raise, mbind, M_bind.
  rewrite Hget. simpl. by rewrite app_nil_r.
Qed.

Lemma test_sql_with_session s opened freed ran alive closed c s1 l1 s2 l2 :
  get_connection opened freed s = (inr c, s1, l1) →
  release_connection c alive closed s1 = (inr (), s2, l2) →
  test_sql opened freed ran alive closed s
  = (match ran with Returns _ => inr true | Raises code => inl (DriverError code) end,
     s2, l1 ++ Run c :: l2).
Proof.
  intros Hget Hrel.
  unfold test_sql, driver, try_finally, try_except, any_exception, raise, emit,
    mbind, mret, M_bind, M_ret.
  rewrite Hget. simpl. destruct ran as [[]|code]; simpl; rewrite Hrel; simpl;
    by rewrite ?app_nil_r.
Qed.

(** X11. [test_connection] answers [True] exactly when the workspace client
    is there or can be made, [current_user.me()] returns, a session is
    obtained from the pool and the test query returns on it.  What the probe
    and [close()] of the release do has no part in the answer. *)
Theorem test_connection_verdict made me opened freed ran alive closed cl :
  (test_connection made me opened freed ran alive closed cl).1.1 = true
  ↔ (workspace_client cl = true ∨ made = Returns ())
    ∧ me = Returns ()
    ∧ ran = Returns ()
    ∧ ∃ c s1 l1, get_connection opened freed (connection_pool cl) = (inr c, s1, l1).
Proof.
  unfold test_connection.
  destruct (workspace_client cl) eqn:Hws, made as [[]|code1], me as [[]|code2];
    simpl; try (split; [done | intros ([?|?] & ? & ?); done]).
  all: destruct (get_connection opened freed (connection_pool cl))
         as [[[e|c] s1] l1] eqn:Hget.
  all: try (rewrite (test_sql_no_session _ _ _ _ _ _ _ _ _ Hget); simpl;
            split; [done | by intros (_ & _ & _ & c & s1' & l1' & ?)]).
  all: destruct (release_connection_returns c alive closed s1) as (s2 & l2 & Hrel);
       rewrite (test_sql_with_session _ _ _ _ _ _ _ _ _ _ _ Hget Hrel);
       destruct ran as [[]|code3]; simpl;
       (split; [intros ?; try done; repeat split; eauto | by intros (? & ? & ? & ?)]).
Qed.


(** X13. The session that a successful [test_connection] opens on a new
    client is the one that the queries after it run on: with probes that
    succeed, the test leaves it idle in the queue, and every following
    [execute_query] takes it, opens no session, and puts it back. *)
Theorem test_connection_then_execute_query N made0 made c freed closed :
  0 < N →
  is_returns made0 || is_returns made = true →
  test_connection made (Returns ()) (Returns c) freed (Returns ()) (Returns ()) closed
    (new_client made0 N)
  = (true, Build_client true (Build_pool N (Queue.mk N [c]) 1),
     [Active 1; Connect; Run c; Probe c])
  ∧ ∀ opened' freed' outcome closed',
      execute_query opened' freed' outcome (Returns ()) closed'
        (Build_pool N (Queue.mk N [c]) 1)
      = (query_result outcome, Build_pool N (Queue.mk N [c]) 1, [Run c; Probe c]).
Proof.
  intros HN Hmade.
  assert (Hroom : Queue.full (Queue.mk N []) = false).
  { unfold Queue.full, Queue.qsize; simpl.
    apply andb_false_iff. right. apply Z.leb_gt. lia. }
  split.
  - unfold test_connection, new_client. simpl.
    replace (negb (is_returns made0) && negb (is_returns made)) with false
      by (destruct made0, made; simpl in *; done).
    erewrite (test_sql_with_session (init N) (Returns c) freed (Returns ()) (Returns ())
                closed c (with_active 1 (init N)) [Active 1; Connect]);
      [reflexivity | by rewrite get_connection_new by (done || simpl; lia) |].
    by rewrite release_connection_put.
  - intros opened' freed' outcome closed'.
    erewrite (execute_query_with_session (Build_pool N (Queue.mk N [c]) 1)
                opened' freed' outcome (Returns ()) closed' c _ [] _ [Probe c]);
      [reflexivity | by apply get_connection_idle |].
    by rewrite release_connection_put.
Qed.

Lemma test_connection_then_execute_query_witness :
  test_connection (Returns ()) (Returns ()) (Returns 1%nat) None (Returns ())
    (Returns ()) (Returns ()) (new_client (Raises 4) 5)
  = (true, Build_client true (Build_pool 5 (Queue.mk 5 [1%nat]) 1),
     [Active 1; Connect; Run 1%nat; Probe 1%nat])
  ∧ ∀ opened' freed' outcome closed',
      execute_query opened' freed' outcome (Returns ()) closed'
        (Build_pool 5 (Queue.mk 5 [1%nat]) 1)
      = (query_result outcome, Build_pool 5 (Queue.mk 5 [1%nat]) 1,
         [Run 1%nat; Probe 1%nat]).
Proof.
  apply (test_connection_then_execute_query 5 (Raises 4) (Returns ()) 1%nat None
           (Returns ())); [lia | reflexivity].
Defined.

(** * The record model and the endpoint address *)

(** X14. [from_dict] undoes [to_dict]: a record turned into a dict and
    read back is the record. *)
Theorem from_dict_to_dict record :
  from_dict (to_dict record) = record.
Proof.
  destruct record. unfold from_dict, to_dict, dict_get; simpl.
  f_equal; by simplify_map_eq.
Qed.

(** X15. [to_dict] after [from_dict] keeps of a dict the six fields of the
    record and nothing else: a field that the dict lacks comes out as
    [None], and every other key is dropped. *)
Theorem to_dict_from_dict data key :
  to_dict (from_dict data) !! key
  = if bool_decide (key ∈ record_fields) then Some (dict_get data key) else None.
Proof.
  unfold to_dict, from_dict, record_fields; simpl.
  destruct (decide (key = "country_code")) as [->|H1]; [by simplify_map_eq|].
  destruct (decide (key = "country_number")) as [->|H2]; [by simplify_map_eq|].
  destruct (decide (key = "country")) as [->|H3]; [by simplify_map_eq|].
  destruct (decide (key = "currency_name")) as [->|H4]; [by simplify_map_eq|].
  destruct (decide (key = "currency_code")) as [->|H5]; [by simplify_map_eq|].
  destruct (decide (key = "currency_number")) as [->|H6]; [by simplify_map_eq|].
  rewrite bool_decide_eq_false_2.
  - by simplify_map_eq.
  - rewrite !elem_of_cons, elem_of_nil. intros [?|[?|[?|[?|[?|[?|[]]]]]]]; done.
Qed.

Lemma remove_all_absent sub s :
  contains sub s = false → remove_all sub 0 s = s.
Proof.
  induction s as [|a rest IH]; [done|]. intros Hno.
  cbn [contains] in Hno. apply orb_false_iff in Hno as [Hhere Hrest].
  cbn [remove_all]. rewrite Hhere. f_equal. by apply IH.
Qed.

(** X16. [ConnectionPool.__init__] takes a leading ["https://"] off the
    host and, when nothing else of the host reads ["https://"], leaves the
    rest as it is; a host without ["https://"] (one that starts with
    ["http://"], say) is kept whole. *)
Theorem server_hostname_strips_https host :
  contains "https://" host = false →
  server_hostname ("https://" +:+ host) = host
  ∧ server_hostname host = host.
Proof.
  intros Hno. unfold server_hostname. split; [|by apply remove_all_absent].
  assert (Hempty : ∀ s, String.prefix "" s = true) by (by intros []).
  simpl. rewrite Hempty. by apply remove_all_absent.
Qed.

Lemma server_hostname_strips_https_witness :
  server_hostname ("https://" +:+ "adb-12.azuredatabricks.net")
  = "adb-12.azuredatabricks.net"
  ∧ server_hostname "adb-12.azuredatabricks.net" = "adb-12.azuredatabricks.net".
Proof.
  apply (server_hostname_strips_https "adb-12.azuredatabricks.net").
  reflexivity.
Defined.

(** * [DataOperations] *)

Ltac unfold_op :=
  unfold get_all_records, get_record_by_id, create_record, add_record,
    delete_record, count_records, client_execute_query, getitem, op_try,
    op_raise, mbind, mret, Op_bind, Op_ret in *.

Lemma create_record_complete record w s r s1 l1 :
  Forall (λ key, is_Some (record !! key)) record_fields →
  execute_query (on_connect w) (on_wait w) (on_query w) (on_probe w) (on_close w) s
  = (r, s1, l1) →
  create_record record w s
  = (inr (match r with inr _ => true | inl _ => false end), s1, l1).
Proof.
  intros Hall Hrun. unfold record_fields in Hall.
  repeat (apply Forall_cons in Hall as [[? ?] Hall]).
  unfold_op. repeat match goal with H : record !! _ = Some _ |- _ => rewrite H; clear H end.
  simpl. rewrite Hrun. destruct r; simpl; by rewrite ?app_nil_r.
Qed.

(** X17. [get_all_records], [get_record_by_id], [delete_record],
    [count_records] and [add_record] never raise, and each makes exactly one
    call of [execute_query], whose pool and log are theirs.  When that call
    raises they return [[]], [None], [False], [0] and [False]: a failure
    reads like an empty table or a missing record.  [count_records] also
    returns [0] when the first row has no column [count]. *)
Theorem data_operations_never_raise w s record r s1 l1 :
  execute_query (on_connect w) (on_wait w) (on_query w) (on_probe w) (on_close w) s
  = (r, s1, l1) →
  get_all_records w s
  = (inr (match r with inr rows => rows | inl _ => [] end), s1, l1)
  ∧ get_record_by_id w s
    = (inr (match r with inr (first :: _) => Some first | _ => None end), s1, l1)
  ∧ delete_record w s
    = (inr (match r with inr _ => true | inl _ => false end), s1, l1)
  ∧ count_records w s
    = (inr (match r with
            | inr (first :: _) => default (VInt 0) (first !! "count")
            | _ => VInt 0
            end), s1, l1)
  ∧ add_record record w s
    = (inr (match r with inr _ => true | inl _ => false end), s1, l1).
Proof.
  intros Hrun. repeat split.
  - unfold_op. rewrite Hrun. destruct r; simpl; by rewrite ?app_nil_r.
  - unfold_op. rewrite Hrun.
    destruct r as [e|[|first rest]]; simpl; by rewrite ?app_nil_r.
  - unfold_op. rewrite Hrun. destruct r; simpl; by rewrite ?app_nil_r.
  - unfold_op. rewrite Hrun.
    destruct r as [e|[|first rest]]; simpl; rewrite ?app_nil_r; try done.
    destruct (first !! "count"); simpl; by rewrite ?app_nil_r.
  - apply create_record_complete; [|done].
    unfold record_fields. repeat constructor; by simplify_map_eq.
Qed.

Lemma data_operations_never_raise_witness :
  get_all_records (Build_reply (Raises 1) None (QueryRaises 2) (Returns ()) (Returns ())) (init 5)
  = (inr [], init 5, [Active 1; Connect; Active 0])
  ∧ get_record_by_id (Build_reply (Raises 1) None (QueryRaises 2) (Returns ()) (Returns ())) (init 5)
    = (inr None, init 5, [Active 1; Connect; Active 0])
  ∧ delete_record (Build_reply (Raises 1) None (QueryRaises 2) (Returns ()) (Returns ())) (init 5)
    = (inr false, init 5, [Active 1; Connect; Active 0])
  ∧ count_records (Build_reply (Raises 1) None (QueryRaises 2) (Returns ()) (Returns ())) (init 5)
    = (inr (VInt 0), init 5, [Active 1; Connect; Active 0])
  ∧ add_record (Build_record VNone VNone VNone VNone VNone VNone)
      (Build_reply (Raises 1) None (QueryRaises 2) (Returns ()) (Returns ())) (init 5)
    = (inr false, init 5, [Active 1; Connect; Active 0]).
Proof.
  apply (data_operations_never_raise
           (Build_reply (Raises 1) None (QueryRaises 2) (Returns ()) (Returns ()))
           (init 5) (Build_record VNone VNone VNone VNone VNone VNone)
           (inl (DriverError 1)) (init 5) [Active 1; Connect; Active 0]).
  reflexivity.
Defined.

(** X18. When the existence check of [update_record] returns no row, or a
    first row whose [count] is [0], [update_record] returns [False] and has
    made that one call of [execute_query] only: no [UPDATE] is sent. *)
Theorem update_record_absent record w_check w_update w_verify s rows s1 l1 :
  has_country_code record →
  execute_query (on_connect w_check) (on_wait w_check) (on_query w_check)
    (on_probe w_check) (on_close w_check) s
  = (inr rows, s1, l1) →
  (rows = [] ∨ ∃ first rest, rows = first :: rest ∧ first !! "count" = Some (VInt 0)) →
  update_record record w_check w_update w_verify s = (inr false, s1, l1).
Proof.
  intros Hcode Hrun Hrows. unfold update_record.
  set (d := match record with inl r => _ | inr d => d end).
  assert (Hd : is_Some (d !! "country_code"))
    by (subst d; destruct record; [by simplify_map_eq | done]).
  destruct Hd as [v Hv]. unfold_op. rewrite Hv. simpl. rewrite Hrun.
  destruct Hrows as [-> | (first & rest & -> & Hcount)]; simpl.
  - by rewrite ?app_nil_r.
  - rewrite Hcount. simpl. by rewrite ?app_nil_r.
Qed.

Lemma update_record_absent_witness :
  update_record (inl (Build_record (VStr "XX") VNone VNone VNone VNone VNone))
    (Build_reply (Returns 1%nat) None
       (QueryReturns (Some ["count"]) [[VInt 0]]) (Returns ()) (Returns ()))
    (Build_reply (Returns 2%nat) None (QueryReturns None []) (Returns ()) (Returns ()))
    (Build_reply (Returns 3%nat) None (QueryReturns None []) (Returns ()) (Returns ()))
    (init 5)
  = (inr false, Build_pool 5 (Queue.mk 5 [1%nat]) 1,
     [Active 1; Connect; Run 1%nat; Probe 1%nat]).
Proof.
  apply (update_record_absent
           (inl (Build_record (VStr "XX") VNone VNone VNone VNone VNone))
           (Build_reply (Returns 1%nat) None
              (QueryReturns (Some ["count"]) [[VInt 0]]) (Returns ()) (Returns ()))
           (Build_reply (Returns 2%nat) None (QueryReturns None []) (Returns ()) (Returns ()))
           (Build_reply (Returns 3%nat) None (QueryReturns None []) (Returns ()) (Returns ()))
           (init 5) [ {["count" := VInt 0]} ]).
  - exact I.
  - reflexivity.
  - right. exists {["count" := VInt 0]}, []. split; [done | by simplify_map_eq].
Defined.

(** X19. The existence check of [update_record] is outside its [try]: when
    that call of [execute_query] raises, [update_record] raises the same
    exception, where [delete_record], given the same failure, returns
    [False]. *)
Theorem update_record_check_raises record w_check w_update w_verify s e s1 l1 :
  has_country_code record →
  execute_query (on_connect w_check) (on_wait w_check) (on_query w_check)
    (on_probe w_check) (on_close w_check) s
  = (inl e, s1, l1) →
  update_record record w_check w_update w_verify s = (inl (ClientError e), s1, l1)
  ∧ delete_record w_check s = (inr false, s1, l1).
Proof.
  intros Hcode Hrun. split.
  - unfold update_record.
    set (d := match record with inl r => _ | inr d => d end).
    assert (Hd : is_Some (d !! "country_code"))
      by (subst d; destruct record; [by simplify_map_eq | done]).
    destruct Hd as [v Hv]. unfold_op. rewrite Hv. simpl. by rewrite Hrun.
  - unfold_op. rewrite Hrun. simpl. by rewrite app_nil_r.
Qed.

Lemma update_record_check_raises_witness :
  update_record (inl (Build_record (VStr "XX") VNone VNone VNone VNone VNone))
    (Build_reply (Returns 1%nat) None (QueryRaises 6) (Returns ()) (Returns ()))
    (Build_reply (Returns 2%nat) None (QueryReturns None []) (Returns ()) (Returns ()))
    (Build_reply (Returns 3%nat) None (QueryReturns None []) (Returns ()) (Returns ()))
    (init 5)
  = (inl (ClientError (DriverError 6)), Build_pool 5 (Queue.mk 5 [1%nat]) 1,
     [Active 1; Connect; Run 1%nat; Probe 1%nat])
  ∧ delete_record
      (Build_reply (Returns 1%nat) None (QueryRaises 6) (Returns ()) (Returns ()))
      (init 5)
    = (inr false, Build_pool 5 (Queue.mk 5 [1%nat]) 1,
       [Active 1; Connect; Run 1%nat; Probe 1%nat]).
Proof.
  apply (update_record_check_raises
           (inl (Build_record (VStr "XX") VNone VNone VNone VNone VNone))
           (Build_reply (Returns 1%nat) None (QueryRaises 6) (Returns ()) (Returns ()))
           (Build_reply (Returns 2%nat) None (QueryReturns None []) (Returns ()) (Returns ()))
           (Build_reply (Returns 3%nat) None (QueryReturns None []) (Returns ()) (Returns ()))
           (init 5) (DriverError 6)); [exact I | reflexivity].
Defined.

Lemma queried_sessions_app l1 l2 :
  queried_sessions (l1 ++ l2) = queried_sessions l1 ++ queried_sessions l2.
Proof.
  induction l1 as [|ev l1 IH]; simpl; [done|].
  destruct ev; simpl; by rewrite ?IH.
Qed.

Lemma get_connection_no_query opened freed s r s1 l1 :
  get_connection opened freed s = (r, s1, l1) → queried_sessions l1 = [].
Proof.
  destruct (idle s) as [|c rest] eqn:Hidle.
  - destruct (Z.lt_ge_cases (active_connections s) (max_connections s)) as [Hlt|Hge].
    + destruct opened as [c|code].
      * rewrite (get_connection_new _ _ _ Hidle Hlt). by intros [= _ _ <-].
      * rewrite (get_connection_refused _ _ _ Hidle Hlt). by intros [= _ _ <-].
    + rewrite (get_connection_wait _ _ _ Hidle Hge). by intros [= _ _ <-].
  - rewrite (get_connection_idle _ _ _ _ _ Hidle). by intros [= _ _ <-].
Qed.

Lemma execute_query_one_query opened freed outcome alive closed s rows s1 l1 :
  execute_query opened freed outcome alive closed s = (inr rows, s1, l1) →
  length (queried_sessions l1) = 1%nat.
Proof.
  intros Hrun.
  destruct (get_connection opened freed s) as [[[e|c] sa] la] eqn:Hget.
  - by rewrite (execute_query_no_session _ _ _ _ _ _ _ _ _ Hget) in Hrun.
  - destruct (release_connection_cases c alive closed sa) as [Hrel|Hrel];
      rewrite (execute_query_with_session _ _ _ _ _ _ _ _ _ _ _ Hget Hrel) in Hrun;
      injection Hrun as _ _ <-;
      rewrite queried_sessions_app, (get_connection_no_query _ _ _ _ _ _ Hget);
      done.
Qed.

(** X20. [update_record] returns [True] only after three calls of
    [execute_query] that all returned, in this order: the existence check,
    whose first row has a [count] other than [0], the [UPDATE], and the
    read-back, which found a row.  It never reports success without having
    read the record back. *)
Theorem update_record_true record w_check w_update w_verify s s' log :
  update_record record w_check w_update w_verify s = (inr true, s', log) →
  ∃ first rest count sa la updated sb lb verified lc,
    execute_query (on_connect w_check) (on_wait w_check) (on_query w_check)
      (on_probe w_check) (on_close w_check) s
    = (inr (first :: rest), sa, la)
    ∧ first !! "count" = Some count ∧ equals_zero count = false
    ∧ execute_query (on_connect w_update) (on_wait w_update) (on_query w_update)
        (on_probe w_update) (on_close w_update) sa
      = (inr updated, sb, lb)
    ∧ execute_query (on_connect w_verify) (on_wait w_verify) (on_query w_verify)
        (on_probe w_verify) (on_close w_verify) sb
      = (inr verified, s', lc)
    ∧ verified ≠ []
    ∧ log = la ++ lb ++ lc
    ∧ length (queried_sessions log) = 3%nat.
Proof.
  unfold update_record.
  set (d := match record with inl r => _ | inr d => d end). clearbody d.
  unfold_op.
  destruct (d !! "country_code") as [v1|]; simpl; [|done].
  destruct (execute_query (on_connect w_check) (on_wait w_check) (on_query w_check)
              (on_probe w_check) (on_close w_check) s)
    as [[[e|[|first rest]] sa] la] eqn:Hcheck; simpl; try done.
  destruct (first !! "count") as [count|] eqn:Hcount; simpl; [|done].
  destruct (equals_zero count) eqn:Hzero; simpl; [done|].
  destruct (d !! "country_number") as [v2|]; simpl; [|done].
  destruct (d !! "country") as [v3|]; simpl; [|done].
  destruct (d !! "currency_name") as [v4|]; simpl; [|done].
  destruct (d !! "currency_code") as [v5|]; simpl; [|done].
  destruct (d !! "currency_number") as [v6|]; simpl; [|done].
  destruct (execute_query (on_connect w_update) (on_wait w_update) (on_query w_update)
              (on_probe w_update) (on_close w_update) sa)
    as [[[e|updated] sb] lb] eqn:Hupdate; simpl; [done|].
  destruct (execute_query (on_connect w_verify) (on_wait w_verify) (on_query w_verify)
              (on_probe w_verify) (on_close w_verify) sb)
    as [[[e|[|row rows]] sc] lc] eqn:Hverify; simpl; try done.
  intros [= <- <-].
  exists first, rest, count, sa, la, updated, sb, lb, (row :: rows), lc.
  repeat split; try done.
  - by rewrite !app_nil_r, ?app_nil_l, <- ?app_assoc.
  - rewrite !app_nil_r, ?app_nil_l, !queried_sessions_app, !length_app.
    rewrite (execute_query_one_query _ _ _ _ _ _ _ _ _ Hcheck).
    rewrite (execute_query_one_query _ _ _ _ _ _ _ _ _ Hupdate).
    by rewrite (execute_query_one_query _ _ _ _ _ _ _ _ _ Hverify).
Qed.

Lemma update_record_true_witness :
  ∃ first rest count sa la updated sb lb verified lc,
    execute_query (Returns 1%nat) None (QueryReturns (Some ["count"]) [[VInt 1]])
      (Returns ()) (Returns ()) (init 5)
    = (inr (first :: rest), sa, la)
    ∧ first !! "count" = Some count ∧ equals_zero count = false
    ∧ execute_query (Returns 2%nat) None (QueryReturns None []) (Returns ()) (Returns ()) sa
      = (inr updated, sb, lb)
    ∧ execute_query (Returns 3%nat) None
        (QueryReturns (Some ["country_code"]) [[VStr "XX"]]) (Returns ()) (Returns ()) sb
      = (inr verified, Build_pool 5 (Queue.mk 5 [1%nat]) 1, lc)
    ∧ verified ≠ []
    ∧ [Active 1; Connect; Run 1%nat; Probe 1%nat; Run 1%nat; Probe 1%nat;
       Run 1%nat; Probe 1%nat] = la ++ lb ++ lc
    ∧ length (queried_sessions
                [Active 1; Connect; Run 1%nat; Probe 1%nat; Run 1%nat; Probe 1%nat;
                 Run 1%nat; Probe 1%nat]) = 3%nat.
Proof.
  apply (update_record_true
           (inl (Build_record (VStr "XX") VNone VNone VNone VNone VNone))
           (Build_reply (Returns 1%nat) None
              (QueryReturns (Some ["count"]) [[VInt 1]]) (Returns ()) (Returns ()))
           (Build_reply (Returns 2%nat) None (QueryReturns None []) (Returns ()) (Returns ()))
           (Build_reply (Returns 3%nat) None
              (QueryReturns (Some ["country_code"]) [[VStr "XX"]]) (Returns ()) (Returns ()))
           (init 5)).
  reflexivity.
Defined.

(** X21. [create_record] reads the six fields of the dict before its
    [try]: when the dict lacks one of them, the first one missing, in the
    order of the statement's columns, raises [KeyError], nothing is asked of
    the pool and no statement is sent. *)
Theorem create_record_missing_key record w s present key later :
  record_fields = present ++ key :: later →
  Forall (λ k, is_Some (record !! k)) present →
  record !! key = None →
  create_record record w s = (inl (KeyError key), s, []).
Proof.
  intros Hfields Hpresent Hmissing. unfold record_fields in Hfields.
  repeat (destruct present as [|? present];
          [injection Hfields as <- <-
          |injection Hfields as <- Hfields;
           apply Forall_cons in Hpresent as [[? ?] Hpresent]]);
    try (by destruct present);
    unfold_op;
    repeat match goal with H : record !! _ = Some _ |- _ => rewrite H; clear H end;
    by rewrite Hmissing.
Qed.

Lemma create_record_missing_key_witness :
  create_record {["country_code" := VStr "XX"; "country_number" := VInt 1]}
    (Build_reply (Returns 1%nat) None (QueryReturns None []) (Returns ()) (Returns ()))
    (init 5)
  = (inl (KeyError "country"), init 5, []).
Proof.
  apply (create_record_missing_key
           {["country_code" := VStr "XX"; "country_number" := VInt 1]}
           (Build_reply (Returns 1%nat) None (QueryReturns None []) (Returns ()) (Returns ()))
           (init 5) ["country_code"; "country_number"] "country"
           ["currency_name"; "currency_code"; "currency_number"]).
  - reflexivity.
  - repeat constructor; by simplify_map_eq.
  - by simplify_map_eq.
Defined.
